(** * Navi's [Resolver]: the memoising resolution cache and its listeners

    A shallow embedding of [packages/navi/src/Resolver.ts].

    The resolver is a JavaScript class; its fields ([nextId], [results],
    [listenerIds]) live in the [world] record below, next to the part of the
    JavaScript run time the class relies on: a heap of objects (error objects
    are mutated in place, the arrays of ids given to [listen] are held by
    reference), the promises the resolver creates and awaits, and the
    callbacks it has registered on them or handed to the [then] of a
    promise-like object of another library.  User code (resolvables,
    listeners and such [then] functions) and the imported [joinPaths] are
    parameters of the development. *)

From stdpp Require Import gmap strings list fin_maps.

Open Scope string_scope.
Open Scope Z_scope.
Open Scope list_scope.

(** ** JavaScript values *)

(** Identity of a function object of user code (a resolvable, a listener,
    the [then] of a promise-like object).  The code only ever uses such
    functions as [Map] keys and calls them. *)
Definition fn := nat.

(** Address of a heap object. *)
Definition loc := nat.

(** The values that flow through the resolver: primitives and references to
    heap objects.  Numbers are the integers and NaN, which is enough for
    every test the code makes on a value (truthiness and [===] on ids).
    The code reads one function out of a value, its [then]:
    [VPromiseThen] is the built-in [Promise.prototype.then], and [VFun g] is
    the function [g] of user code, so that an object whose [then] is a
    [VFun] is a promise-like object of another library.  Function values
    carry no properties of their own. *)
Inductive jsval :=
| VUndefined
| VNull
| VBool (b : bool)
| VNum (n : Z)
| VNaN
| VStr (s : string)
| VObj (l : loc)
| VPromiseThen
| VFun (g : fn).

(** The state of a promise. *)
Inductive settlement :=
| Pending
| Fulfilled (v : jsval)
| Rejected (e : jsval).

(** Modelled from the spec: the class [NotFoundError] of [./Errors], which is
    not part of the sources at hand.  The spec describes it as a recognisable
    not-found error shape with an optional path field; the code tests it with
    [instanceof] and reads and writes its [pathname] property.  An object
    carries its class as a tag, and [instanceof NotFoundError] reads the
    tag. *)
Inductive class :=
| ClsObject
| ClsError
| ClsTypeError
| ClsNotFoundError.

(** A heap cell: an ordinary object with its own properties, a native
    promise (which has no own properties and inherits [then]), or an array of
    numbers (the [number[]] a listener is registered with). *)
Inductive cell :=
| Obj (c : class) (fields : gmap string jsval)
| Promise (s : settlement)
| Arr (ids : list Z).

(** The heap is an array of cells; allocation appends. *)
Definition alloc (h : list cell) (c : cell) : list cell * loc :=
  (h ++ [c], length h).

(** [!!v] *)
Definition truthy (v : jsval) : bool :=
  match v with
  | VUndefined | VNull | VNaN => false
  | VBool b => b
  | VNum n => negb (n =? 0)
  | VStr s => negb (String.eqb s "")
  | VObj _ | VPromiseThen | VFun _ => true
  end.

(** [v[k]] for a [v] that is neither [null] nor [undefined] (every property
    read in the code is guarded by a truthiness or [instanceof] test).
    Primitives, functions and arrays have none of the properties the code
    asks for ([then], [default], [pathname]). *)
Definition get (h : list cell) (v : jsval) (k : string) : jsval :=
  match v with
  | VObj l =>
      match h !! l with
      | Some (Obj _ fields) => default VUndefined (fields !! k)
      | Some (Promise _) => if String.eqb k "then" then VPromiseThen else VUndefined
      | Some (Arr _) | None => VUndefined
      end
  | _ => VUndefined
  end.

(** [typeof v === 'object'] *)
Definition typeof_object (v : jsval) : bool :=
  match v with
  | VNull | VObj _ => true
  | _ => false
  end.

(** [k in v], for an object [v] *)
Definition has_property (h : list cell) (v : jsval) (k : string) : bool :=
  match v with
  | VObj l =>
      match h !! l with
      | Some (Obj _ fields) => bool_decide (is_Some (fields !! k))
      | Some (Promise _) => String.eqb k "then"
      | Some (Arr _) | None => false
      end
  | _ => false
  end.

(** [v instanceof NotFoundError] *)
Definition instanceof_NotFoundError (h : list cell) (v : jsval) : bool :=
  match v with
  | VObj l =>
      match h !! l with
      | Some (Obj ClsNotFoundError _) => true
      | _ => false
      end
  | _ => false
  end.

(** [v.k = x], for an object [v] *)
Definition set_property (h : list cell) (v : jsval) (k : string) (x : jsval) : list cell :=
  match v with
  | VObj l =>
      match h !! l with
      | Some (Obj c fields) => <[l := Obj c (<[k := x]> fields)]> h
      | _ => h
      end
  | _ => h
  end.

(** Is the value a native promise? *)
Definition is_promise (h : list cell) (v : jsval) : bool :=
  match v with
  | VObj l =>
      match h !! l with
      | Some (Promise _) => true
      | _ => false
      end
  | _ => false
  end.

(** Can the value be called?  Only functions can. *)
Definition callable (v : jsval) : bool :=
  match v with
  | VPromiseThen | VFun _ => true
  | _ => false
  end.

(** Has the value a [then] that can be called?  The run time treats such a
    value as a promise to follow when a promise is resolved with it. *)
Definition thenable (h : list cell) (v : jsval) : bool :=
  callable (get h v "then").

(** What [x.then(...)] calls. *)
Inductive then_method :=
| ThenNative            (* the built-in [then], on a promise *)
| ThenUser (g : fn)      (* a function of user code *)
| ThenNone.              (* nothing that can be called this way: a [TypeError] *)

(** [x.then], as the call [x.then(...)] finds it.  A [then] that is not a
    function cannot be called, no property can be read from [undefined] or
    [null], and the built-in [then] rejects a receiver that is not a
    promise: in all three cases the call throws a [TypeError]. *)
Definition method_then (h : list cell) (x : jsval) : then_method :=
  match get h x "then" with
  | VPromiseThen => if is_promise h x then ThenNative else ThenNone
  | VFun g => ThenUser g
  | _ => ThenNone
  end.

(** [Promise.resolve(v)]: a promise is returned as it is, any other value is
    wrapped in a new, already fulfilled promise.  (The code calls it on
    values that are not promise-shaped only.) *)
Definition Promise_resolve (h : list cell) (v : jsval) : list cell * jsval :=
  if is_promise h v then (h, v)
  else let '(h', l) := alloc h (Promise (Fulfilled v)) in (h', VObj l).

(** ** Status *)

Inductive Status :=
| Ready
| Busy
| Error.

Definition Status_eqb (x y : Status) : bool :=
  match x, y with
  | Ready, Ready | Busy, Busy | Error, Error => true
  | _, _ => false
  end.

Definition reduceStatuses (x y : Status) : Status :=
  if Status_eqb x Error || Status_eqb y Error then Error
  else if Status_eqb x Busy || Status_eqb y Busy then Busy
  else Ready.

(** ** Resolution *)

(** A [Resolution] object.  [value] and [error] are optional properties.
    The resolver builds these objects with object literals and never writes
    to one afterwards (a settled attempt gets a new object), so a record
    value stands for the object. *)
Record Resolution := mkResolution {
  id : Z;
  status : Status;
  promise : jsval;
  error : option jsval;
  value : option jsval;
}.

(** [r.id] and [r.error], for use where a local variable is called [id] or
    [error] as in the source. *)
Abbreviation id_of := id (only parsing).
Abbreviation error_of := error (only parsing).

(** ** The three helpers at the end of the file *)

Definition isPromiseLike (h : list cell) (x : jsval) : bool :=
  truthy x && truthy (get h x "then").

Definition hasDefault (h : list cell) (v : jsval) : bool :=
  truthy v && typeof_object v && has_property h v "default".

Definition extractDefault (h : list cell) (v : jsval) : jsval :=
  if hasDefault h v then get h v "default" else v.

(** ** The environment of a resolution *)

(** Modelled from the spec: the type [Env] of [./Env], which is not part of
    the sources at hand.  The spec describes it as an opaque context object
    with a contextual payload, a matched path prefix and an unmatched
    remainder, used as an identity key.  [env_ref] is the identity of the
    object, the key of the [WeakMap]; the code reads [pathname] and
    [unmatchedPathnamePart]. *)
Record Env := mkEnv {
  env_ref : nat;
  context : jsval;
  pathname : string;
  unmatchedPathnamePart : string;
}.

(** ** The world: the resolver's fields and the run time around them *)

(** The result of running a piece of code that may throw. *)
Inductive completion (A : Type) :=
| Return (a : A)
| Throw (e : jsval).
Arguments Return {A} a.
Arguments Throw {A} e.

(** What user code can do with a resolver: call its three methods, and,
    since [listen] keeps the array it is given, write to an array of ids
    ([WriteIds a ids] makes [ids] the content of the array at [a]). *)
Inductive api_call :=
| CallResolve (env : Env) (resolvable : fn) (dataResolvable : option fn)
| CallListen (listener : fn) (resolutionIds : loc)
| CallUnlisten (listener : fn)
| WriteIds (a : loc) (ids : list Z).

(** The functions that are passed to a [then]: [extractDefault] (line 85),
    the two callbacks of the first [then] of [listenForChanges] with the
    variables they close over (lines 105 to 134), the callback of its second
    [then] (lines 136 to 148), and the two resolving functions of a promise,
    which the run time passes to the [then] of a promise-like object the
    promise is resolved with. *)
Inductive callback :=
| ExtractDefault
| OnFulfilled (promise : jsval) (env : nat) (resolvable : fn) (id : Z)
| OnRejected (promise : jsval) (env : nat) (resolvable : fn) (id : Z)
    (fullPathname : string)
| OnDidUpdate (id : Z)
| ResolveFn (derived : loc)
| RejectFn (derived : loc).

(** A callback waiting for a promise.
    - [Unwrap src derived]: [derived = src.then(extractDefault)];
    - [Follow src derived]: [derived] has been resolved with the promise
      [src] and takes its outcome;
    - [Changes ...]: the first [then] of [listenForChanges], with its two
      callbacks;
    - [Notify didUpdate id]: the second [then] of [listenForChanges], a job
      of its own, queued with the result of the callback that ran;
    - [Awaits src id]: the callback of the second [then], registered on the
      promise [src] that the [then] of a promise-like object returned. *)
Inductive reaction :=
| Unwrap (src derived : loc)
| Follow (src derived : loc)
| Changes (promise : jsval) (env : nat) (resolvable : fn) (id : Z) (fullPathname : string)
| Notify (didUpdate : bool) (id : Z)
| Awaits (src : loc) (id : Z).

(** The log of calls, kept to state what was and was not invoked: calls of
    user code by the resolver, and calls of the resolver by user code. *)
Inductive event :=
| EvResolvable (env : nat) (resolvable : fn)
| EvListener (listener : fn)
| EvApi (c : api_call).

(** [nextId], [results] and [listenerIds] are the fields of the class.
    - [results] is keyed by the identity of the [Env]; the inner [Map] of an
      environment is created once and never replaced, so the closures that
      captured it reach it through the same key.
    - [listenerIds] is a [Map] whose iteration order matters: a list in
      insertion order.  Its values are the arrays [listen] was given, by
      reference: addresses of the heap.
    [heap], [reactions], [held] and [trace] are the run time and the log;
    [held] lists the callbacks of the resolver that were passed to a [then]
    of user code, which may call them later. *)
Record world := mkWorld {
  nextId : Z;
  results : gmap nat (gmap fn Resolution);
  listenerIds : list (fn * loc);
  heap : list cell;
  reactions : list reaction;
  held : list callback;
  trace : list event;
}.

(** [new Resolver()] on a given heap. *)
Definition new_Resolver (h : list cell) : world :=
  {| nextId := 1; results := ∅; listenerIds := []; heap := h;
     reactions := []; held := []; trace := [] |}.

Definition set_nextId (w : world) (n : Z) : world :=
  {| nextId := n; results := results w; listenerIds := listenerIds w;
     heap := heap w; reactions := reactions w; held := held w; trace := trace w |}.

Definition set_results (w : world) (r : gmap nat (gmap fn Resolution)) : world :=
  {| nextId := nextId w; results := r; listenerIds := listenerIds w;
     heap := heap w; reactions := reactions w; held := held w; trace := trace w |}.

Definition set_listenerIds (w : world) (l : list (fn * loc)) : world :=
  {| nextId := nextId w; results := results w; listenerIds := l;
     heap := heap w; reactions := reactions w; held := held w; trace := trace w |}.

Definition set_heap (w : world) (h : list cell) : world :=
  {| nextId := nextId w; results := results w; listenerIds := listenerIds w;
     heap := h; reactions := reactions w; held := held w; trace := trace w |}.

Definition set_reactions (w : world) (rs : list reaction) : world :=
  {| nextId := nextId w; results := results w; listenerIds := listenerIds w;
     heap := heap w; reactions := rs; held := held w; trace := trace w |}.

Definition set_held (w : world) (cs : list callback) : world :=
  {| nextId := nextId w; results := results w; listenerIds := listenerIds w;
     heap := heap w; reactions := reactions w; held := cs; trace := trace w |}.

Definition log (w : world) (e : event) : world :=
  {| nextId := nextId w; results := results w; listenerIds := listenerIds w;
     heap := heap w; reactions := reactions w; held := held w;
     trace := trace w ++ [e] |}.

(** The inner [Map] of an environment. *)
Definition table (w : world) (env : nat) : gmap fn Resolution :=
  default ∅ (results w !! env).

(** [matcherResults.get(resolvable)] *)
Definition lookup_result (w : world) (env : nat) (resolvable : fn) : option Resolution :=
  table w env !! resolvable.

(** [matcherResults.set(resolvable, result)] *)
Definition set_result (w : world) (env : nat) (resolvable : fn) (result : Resolution) : world :=
  set_results w (<[env := <[resolvable := result]> (table w env)]> (results w)).

(** [n++] on a JavaScript number holding a positive integer: above 2^53 the
    sum is not representable and rounds back to [n]. *)
Definition js_increment (n : Z) : Z :=
  if n <? 2 ^ 53 then n + 1 else n.

(** [Map.prototype.set] on the insertion-ordered [listenerIds]: an existing
    key keeps its place, a new key goes to the end. *)
Fixpoint Map_set (m : list (fn * loc)) (k : fn) (v : loc) : list (fn * loc) :=
  match m with
  | [] => [(k, v)]
  | (k', v') :: rest =>
      if Nat.eqb k' k then (k', v) :: rest else (k', v') :: Map_set rest k v
  end.

(** [Map.prototype.delete] *)
Fixpoint Map_delete (m : list (fn * loc)) (k : fn) : list (fn * loc) :=
  match m with
  | [] => []
  | (k', v') :: rest =>
      if Nat.eqb k' k then Map_delete rest k else (k', v') :: Map_delete rest k
  end.

(** [ids.indexOf(id) !== -1] *)
Definition includes (ids : list Z) (id : Z) : bool :=
  existsb (Z.eqb id) ids.

(** [ids.indexOf(id) !== -1] for the object at [a], read when the test is
    made: [None] when there is no array at [a], and the call of [indexOf] is
    a [TypeError]. *)
Definition indexOf_found (h : list cell) (a : loc) (id : Z) : option bool :=
  match h !! a with
  | Some (Arr ids) => Some (includes ids id)
  | _ => None
  end.

(** User code writes to the array at [a]; nothing else can be written this
    way. *)
Definition write_ids (h : list cell) (a : loc) (ids : list Z) : list cell :=
  match h !! a with
  | Some (Arr _) => <[a := Arr ids]> h
  | _ => h
  end.

(** [throw new TypeError()] of the run time. *)
Definition TypeError (h : list cell) : list cell * jsval :=
  let '(h', e) := alloc h (Obj ClsTypeError ∅) in (h', VObj e).

(** ** A small program to run the resolver on

    User code for the examples below: a heap, an environment, resolvables
    [1] to [6], listeners [10] to [14] and the [then] functions [20] to
    [22]. *)

Definition ex_heap : list cell :=
  [ Obj ClsObject {[ "default" := VStr "x" ]};        (* 0: a module-like object *)
    Promise Pending;                                  (* 1: a promise of user code *)
    Obj ClsNotFoundError ∅;                           (* 2: a not-found error without a path *)
    Obj ClsNotFoundError {[ "pathname" := VStr "/old" ]};  (* 3: one with a path *)
    Promise Pending;                                  (* 4: another promise of user code *)
    Obj ClsObject {[ "default" := VObj 4%nat ]};      (* 5: an object whose default is promise 4 *)
    Obj ClsObject {[ "then" := VNum 1 ]} ].           (* 6: promise-shaped, but no promise *)

(** The heap with the arrays of ids of three listeners and one more. *)
Definition ex_heap_ids : list cell :=
  ex_heap ++
  [ Arr [7];                                          (* 7 *)
    Arr [7];                                          (* 8 *)
    Arr [8];                                          (* 9 *)
    Arr [8; 9] ].                                     (* 10 *)

(** The heap with objects that have a [then] and are no promises. *)
Definition ex_heap_then : list cell :=
  ex_heap ++
  [ Obj ClsObject {[ "then" := VFun 20%nat ]};        (* 7: promise-like, of user code *)
    Obj ClsObject {[ "then" := VPromiseThen ]};       (* 8: the built-in [then], borrowed *)
    Obj ClsObject {[ "default" := VObj 8%nat ]};      (* 9: a module-like object around 8 *)
    Obj ClsObject {[ "then" := VFun 21%nat ]} ].      (* 10: one whose [then] throws *)

Definition ex_env : Env :=
  {| env_ref := 0; context := VUndefined; pathname := "/a"; unmatchedPathnamePart := "/b" |}.

Definition ex_joinPaths (a b : string) : string := a +:+ b.

(** Resolvable 1 returns [42]; 2 returns promise 1; 3 throws; 4 returns the
    promise-shaped object 6; 5 returns promise 4; 6 returns the object 7; any
    other returns [undefined]. *)
Definition ex_resolvable_body (f : fn) (env : Env) (dataPromise : jsval) (h : list cell)
  : completion jsval * list cell :=
  match f with
  | 1%nat => (Return (VNum 42), h)
  | 2%nat => (Return (VObj 1%nat), h)
  | 3%nat => (Throw (VStr "boom"), h)
  | 4%nat => (Return (VObj 6%nat), h)
  | 5%nat => (Return (VObj 4%nat), h)
  | 6%nat => (Return (VObj 7%nat), h)
  | _ => (Return VUndefined, h)
  end.

(** The [then] function 20 keeps the callbacks and returns the object it was
    called on; 21 throws; any other returns [undefined]. *)
Definition ex_then_body (g : fn) (this : jsval) (callbacks : list callback) (h : list cell)
  : completion jsval * list cell :=
  match g with
  | 20%nat => (Return this, h)
  | 21%nat => (Throw (VStr "no"), h)
  | _ => (Return VUndefined, h)
  end.

(** Listener 10 calls [unlisten(11)]; listener 12 throws; listener 14
    empties the array 8; any other does nothing. *)
Definition ex_listener_body (l : fn) (w : world) : list api_call * bool :=
  match l with
  | 10%nat => ([CallUnlisten 11%nat], false)
  | 12%nat => ([], true)
  | 14%nat => ([WriteIds 8%nat []], false)
  | _ => ([], false)
  end.

(** A world in which the entry of resolvable 2 has been replaced behind the
    back of the attempt with id 1: the table holds a record with id 9.
    Listener 11 is registered with the array 7, which holds the id 1. *)
Definition ex_replaced : world :=
  {| nextId := 10;
     results :=
       {[ 0%nat := {[ 2%nat := {| id := 9; status := Busy; promise := VObj 4%nat;
                                   error := None; value := None |} ]} ]};
     listenerIds := [(11%nat, 7%nat)];
     heap := ex_heap ++ [Arr [1]];
     reactions := [];
     held := [];
     trace := [] |}.

(** A fresh resolver with three listeners: 10 and 11 for id 7, 13 for
    id 8, each with an array of its own. *)
Definition ex_listening : world :=
  {| nextId := 1; results := ∅;
     listenerIds := [(10%nat, 7%nat); (11%nat, 8%nat); (13%nat, 9%nat)];
     heap := ex_heap_ids; reactions := []; held := []; trace := [] |}.

(** ** The class [Resolver] *)

Section Resolver.

(** Modelled from the spec: [joinPaths] of [./URLTools], which is not part of
    the sources at hand.  The spec only says that it builds the full path
    string from the matched prefix and the unmatched remainder, so it is a
    parameter. *)
Variable joinPaths : string -> string -> string.

(** What calling the resolvable [f] as [f(env, dataPromise)] does: it may
    allocate on the heap, and it returns a value or throws.  A resolvable
    does not call back into the resolver. *)
Variable resolvable_body :
  fn -> Env -> jsval -> list cell -> completion jsval * list cell.

(** What calling the function [g] of user code as [this.then(callbacks)]
    does: like a resolvable, it may allocate on the heap, and it returns a
    value or throws.  It keeps the callbacks and does not call them, or
    anything else of the resolver, before it returns (Promises/A+ 2.2.4);
    what it does with them later is a step of the run ([Invoke] below). *)
Variable then_body :
  fn -> jsval -> list callback -> list cell -> completion jsval * list cell.

(** What calling the listener [l] as [l()] does, given the world it is called
    in: the calls it makes on the resolver and the writes to arrays of ids,
    in order, and whether it throws after them.  A call of [resolve] that
    throws inside a listener ends the listener with that exception. *)
Variable listener_body : fn -> world -> list api_call * bool.

(** [listen] stores the array it is given, not a copy. *)
Definition listen (w : world) (listener : fn) (resolutionIds : loc) : world :=
  set_listenerIds w (Map_set (listenerIds w) listener resolutionIds).

Definition unlisten (w : world) (listener : fn) : world :=
  set_listenerIds w (Map_delete (listenerIds w) listener).

(** [throw new TypeError()] *)
Definition throw_TypeError {A} (w : world) : world * completion A :=
  let '(h, e) := TypeError (heap w) in (set_heap w h, Throw e).

(** [maybeValue.then(extractDefault)] (line 85): reads [then] and calls it.
    The built-in [then] on a promise returns a new pending promise and
    registers the callback.  A [then] of user code is called with
    [extractDefault], which has no effect on the resolver whenever it is
    called later; what it returns is the [promise] of line 85.  Anything else
    that passed for promise-shaped cannot be called this way, and the call
    throws a [TypeError]. *)
Definition then_extractDefault (h : list cell) (rs : list reaction) (maybeValue : jsval)
  : list cell * completion (jsval * list reaction) :=
  match method_then h maybeValue, maybeValue with
  | ThenNative, VObj src =>
      let '(h', derived) := alloc h (Promise Pending) in
      (h', Return (VObj derived, rs ++ [Unwrap src derived]))
  | ThenUser g, _ =>
      match then_body g maybeValue [ExtractDefault] h with
      | (Return promise, h') => (h', Return (promise, rs))
      | (Throw e, h') => (h', Throw e)
      end
  | _, _ => let '(h', e) := TypeError h in (h', Throw e)
  end.

(** [next.then(didUpdate => ...)], the second [then] of [listenForChanges],
    when [next] is what a [then] of user code returned.  On a promise the
    callback is registered; a [then] of user code is handed the callback. *)
Definition then_didUpdate (w : world) (next : jsval) (id : Z) : world * completion unit :=
  match method_then (heap w) next, next with
  | ThenNative, VObj src =>
      (set_reactions w (reactions w ++ [Awaits src id]), Return tt)
  | ThenUser g, _ =>
      let w := set_held w (held w ++ [OnDidUpdate id]) in
      match then_body g next [OnDidUpdate id] (heap w) with
      | (Return _, h) => (set_heap w h, Return tt)
      | (Throw e, h) => (set_heap w h, Throw e)
      end
  | _, _ => throw_TypeError w
  end.

(** [promise.then(onFulfilled, onRejected).then(notify)].  On a promise, the
    first two callbacks are registered as a reaction on [promise]; the last
    one is queued when one of them has run (see [run_reaction]); the two
    promises the chain creates are referenced by nobody and are not allocated
    here.  A [then] of user code is handed the two callbacks, and the second
    [then] is called on what it returns.  Any other [promise] makes the call
    a [TypeError], which leaves [listenForChanges] and [resolve]. *)
Definition listenForChanges (w : world) (promise : jsval) (env : nat)
    (resolvable : fn) (id : Z) (fullPathname : string) : world * completion unit :=
  match method_then (heap w) promise with
  | ThenNative =>
      (set_reactions w (reactions w ++ [Changes promise env resolvable id fullPathname]),
       Return tt)
  | ThenUser g =>
      let callbacks := [OnFulfilled promise env resolvable id;
                        OnRejected promise env resolvable id fullPathname] in
      let w := set_held w (held w ++ callbacks) in
      match then_body g promise callbacks (heap w) with
      | (Return next, h) => then_didUpdate (set_heap w h) next id
      | (Throw e, h) => (set_heap w h, Throw e)
      end
  | ThenNone => throw_TypeError w
  end.

(** Lines 58 to 62: the table of the environment is created if it is not
    there. *)
Definition with_table (w : world) (env : nat) : world :=
  match results w !! env with
  | Some _ => w
  | None => set_results w (<[env := ∅]> (results w))
  end.

(** Lines 69 to 71: the promise handed to the resolvable, the one of the
    memoised resolution of [dataResolvable] if there is one, else
    [Promise.resolve()]. *)
Definition data_promise (w : world) (env : nat) (dataResolvable : option fn)
  : list cell * jsval :=
  match dataResolvable ≫= lookup_result w env with
  | Some dataResolution => (heap w, promise dataResolution)
  | None => Promise_resolve (heap w) VUndefined
  end.

Definition resolve (w : world) (env : Env) (resolvable : fn)
    (dataResolvable : option fn) : world * completion Resolution :=
  let w := with_table w (env_ref env) in
  let matcherResults := table w (env_ref env) in
  match matcherResults !! resolvable with
  | Some currentResult => (w, Return currentResult)
  | None =>
      let '(h, dataPromise) := data_promise w (env_ref env) dataResolvable in
      let id := nextId w in
      let w := set_nextId (set_heap w h) (js_increment id) in
      let w := log w (EvResolvable (env_ref env) resolvable) in
      match resolvable_body resolvable env dataPromise (heap w) with
      | (Throw e, h) => (set_heap w h, Throw e)
      | (Return maybeValue, h) =>
          if negb (isPromiseLike h maybeValue) then
            let '(h, p) := Promise_resolve h maybeValue in
            let result :=
              {| id := id; status := Ready; value := Some maybeValue;
                 promise := p; error := None |} in
            (set_result (set_heap w h) (env_ref env) resolvable result, Return result)
          else
            match then_extractDefault h (reactions w) maybeValue with
            | (h, Throw e) => (set_heap w h, Throw e)
            | (h, Return (promise, rs)) =>
                let result :=
                  {| id := id; status := Busy; promise := promise;
                     value := None; error := None |} in
                let w := set_result (set_reactions (set_heap w h) rs)
                           (env_ref env) resolvable result in
                match listenForChanges w promise (env_ref env) resolvable id
                        (joinPaths (pathname env) (unmatchedPathnamePart env)) with
                | (w, Return _) => (w, Return result)
                | (w, Throw e) => (w, Throw e)
                end
            end
      end
  end.

(** The world in which [resolve] calls the resolvable, when there is no
    memoised resolution: the table exists, the data promise is allocated, the
    id is taken and the call is logged. *)
Definition at_call (w : world) (env : nat) (resolvable : fn)
    (dataResolvable : option fn) : world :=
  log (set_nextId (set_heap (with_table w env) (data_promise w env dataResolvable).1)
         (js_increment (nextId w))) (EvResolvable env resolvable).

(** The first callback of [listenForChanges]; the result tells whether it
    returned [true] (it returns [undefined] otherwise). *)
Definition onFulfilled (w : world) (promise : jsval) (env : nat) (resolvable : fn)
    (id : Z) (value : jsval) : world * bool :=
  match lookup_result w env resolvable with
  | Some currentResult =>
      if id_of currentResult =? id then
        (set_result w env resolvable
           {| id := id_of currentResult; status := Ready; value := Some value;
              promise := promise; error := None |},
         true)
      else (w, false)
  | None => (w, false)
  end.

(** Lines 120 to 122: the path annotation of a not-found error. *)
Definition annotate (h : list cell) (error : jsval) (fullPathname : string) : list cell :=
  if instanceof_NotFoundError h error && negb (truthy (get h error "pathname"))
  then set_property h error "pathname" (VStr fullPathname)
  else h.

(** [error || new Error()] *)
Definition error_or_new (h : list cell) (error : jsval) : list cell * jsval :=
  if truthy error then (h, error)
  else let '(h', l) := alloc h (Obj ClsError ∅) in (h', VObj l).

(** The second callback of [listenForChanges]. *)
Definition onRejected (w : world) (promise : jsval) (env : nat) (resolvable : fn)
    (id : Z) (fullPathname : string) (error : jsval) : world * bool :=
  let currentResult := lookup_result w env resolvable in
  let w := set_heap w (annotate (heap w) error fullPathname) in
  match currentResult with
  | Some currentResult =>
      if id_of currentResult =? id then
        let '(h, e) := error_or_new (heap w) error in
        (set_result (set_heap w h) env resolvable
           {| id := id_of currentResult; status := Error; error := Some e;
              promise := promise; value := None |},
         true)
      else (w, false)
  | None => (w, false)
  end.

(** One call of the resolver, or one write to an array, by user code; the
    result tells whether it threw. *)
Definition exec_call (w : world) (c : api_call) : world * bool :=
  let w := log w (EvApi c) in
  match c with
  | CallResolve env resolvable dataResolvable =>
      match resolve w env resolvable dataResolvable with
      | (w', Return _) => (w', false)
      | (w', Throw _) => (w', true)
      end
  | CallListen listener resolutionIds => (listen w listener resolutionIds, false)
  | CallUnlisten listener => (unlisten w listener, false)
  | WriteIds a ids => (set_heap w (write_ids (heap w) a ids), false)
  end.

Fixpoint exec_calls (w : world) (cs : list api_call) : world * bool :=
  match cs with
  | [] => (w, false)
  | c :: rest =>
      match exec_call w c with
      | (w', true) => (w', true)
      | (w', false) => exec_calls w' rest
      end
  end.

(** [listener()] *)
Definition call_listener (w : world) (listener : fn) : world * bool :=
  let '(cs, throws) := listener_body listener w in
  let '(w', threw) := exec_calls (log w (EvListener listener)) cs in
  (w', threw || throws).

(** The loop over the snapshot [Array.from(this.listenerIds.entries())].
    The snapshot copies the entries, not the arrays: [ids.indexOf(id)] reads
    the array as it is when the loop gets to the entry.  An exception of a
    listener leaves the loop, and so does the [TypeError] of [indexOf] on
    something that is not an array. *)
Fixpoint fanout (w : world) (snapshot : list (fn * loc)) (id : Z) : world :=
  match snapshot with
  | [] => w
  | (listener, ids) :: rest =>
      match indexOf_found (heap w) ids id with
      | Some true =>
          match call_listener w listener with
          | (w', true) => w'
          | (w', false) => fanout w' rest id
          end
      | Some false => fanout w rest id
      | None => w
      end
  end.

(** The last callback of [listenForChanges]. *)
Definition notify (w : world) (didUpdate : bool) (id : Z) : world :=
  if didUpdate then fanout w (listenerIds w) id else w.

(** ** The run time: settling promises and running reactions *)

(** The state of the promise [p]. *)
Definition promise_state (h : list cell) (p : jsval) : option settlement :=
  match p with
  | VObj l =>
      match h !! l with
      | Some (Promise s) => Some s
      | _ => None
      end
  | _ => None
  end.

(** The promise at [l] takes the state [s]. *)
Definition settle_promise (h : list cell) (l : loc) (s : settlement) : list cell :=
  <[l := Promise s]> h.

(** Resolving the promise [derived] with the value [x], as the resolving
    function of a promise does, and the run time with what a [then] callback
    returned.  The promise itself is a [TypeError].  An object with a [then]
    that can be called is followed: its [then] is called with the resolving
    functions of [derived].  On a promise the built-in [then] registers them;
    on anything else it throws a [TypeError]; a [then] of user code keeps
    them, so that [derived] is from then on settled by user code; and an
    exception of the [then] rejects [derived].  Any other value fulfils.
    (The run time calls the [then] in a job of its own; as a [then] does not
    reach the resolver, it is called here at once.) *)
Definition resolve_promise (h : list cell) (rs : list reaction) (derived : loc) (x : jsval)
  : list cell * list reaction :=
  match x with
  | VObj l =>
      if Nat.eqb l derived then
        let '(h', e) := TypeError h in
        (settle_promise h' derived (Rejected e), rs)
      else
        match get h x "then" with
        | VPromiseThen =>
            if is_promise h x then (h, rs ++ [Follow l derived])
            else
              let '(h', e) := TypeError h in
              (settle_promise h' derived (Rejected e), rs)
        | VFun g =>
            match then_body g x [ResolveFn derived; RejectFn derived] h with
            | (Return _, h') => (h', rs)
            | (Throw e, h') => (settle_promise h' derived (Rejected e), rs)
            end
        | _ => (settle_promise h derived (Fulfilled x), rs)
        end
  | _ => (settle_promise h derived (Fulfilled x), rs)
  end.

(** The reaction [r], whose promise has the state [s], runs in [w] (from
    which it has been removed).  A callback of [listenForChanges] queues the
    last callback with its result; that job does not wait for a promise. *)
Definition run_reaction (w : world) (r : reaction) (s : settlement) : world :=
  match r with
  | Unwrap _ derived =>
      match s with
      | Pending => w
      | Fulfilled v =>
          let '(h, rs) :=
            resolve_promise (heap w) (reactions w) derived (extractDefault (heap w) v) in
          set_reactions (set_heap w h) rs
      | Rejected e => set_heap w (settle_promise (heap w) derived (Rejected e))
      end
  | Follow _ derived =>
      match s with
      | Pending => w
      | _ => set_heap w (settle_promise (heap w) derived s)
      end
  | Changes promise env resolvable id fullPathname =>
      match s with
      | Pending => w
      | Fulfilled value =>
          let '(w', didUpdate) := onFulfilled w promise env resolvable id value in
          set_reactions w' (reactions w' ++ [Notify didUpdate id])
      | Rejected error =>
          let '(w', didUpdate) :=
            onRejected w promise env resolvable id fullPathname error in
          set_reactions w' (reactions w' ++ [Notify didUpdate id])
      end
  | Notify didUpdate id => notify w didUpdate id
  | Awaits _ id =>
      match s with
      | Fulfilled didUpdate =>
          set_reactions w (reactions w ++ [Notify (truthy didUpdate) id])
      | _ => w
      end
  end.

(** The promise a reaction waits for, if any. *)
Definition awaited (r : reaction) : option jsval :=
  match r with
  | Unwrap src _ | Follow src _ | Awaits src _ => Some (VObj src)
  | Changes promise _ _ _ _ => Some promise
  | Notify _ _ => None
  end.

(** The job loop runs the [i]-th registered reaction, if it waits for no
    promise or its promise has settled. *)
Definition react (w : world) (i : nat) : world :=
  match reactions w !! i with
  | Some r =>
      let w0 := set_reactions w (delete i (reactions w)) in
      match awaited r with
      | Some p =>
          match promise_state (heap w) p with
          | Some Pending | None => w
          | Some s => run_reaction w0 r s
          end
      | None => run_reaction w0 r Pending
      end
  | None => w
  end.

(** Is [l] a promise whose outcome is in the hands of the run time? *)
Definition derived_by (l : loc) (r : reaction) : bool :=
  match r with
  | Unwrap _ derived | Follow _ derived => Nat.eqb derived l
  | Changes _ _ _ _ _ | Notify _ _ | Awaits _ _ => false
  end.

(** User code calls a resolving function of one of its own pending
    promises: [Fulfilled v] stands for the call [resolve(v)], which follows
    [v] if it has a [then] and fulfils the promise otherwise, and
    [Rejected e] for [reject(e)]. *)
Definition settle (w : world) (l : loc) (s : settlement) : world :=
  match heap w !! l with
  | Some (Promise Pending) =>
      if existsb (derived_by l) (reactions w) then w
      else
        match s with
        | Pending => w
        | Fulfilled v =>
            let '(h, rs) := resolve_promise (heap w) (reactions w) l v in
            set_reactions (set_heap w h) rs
        | Rejected _ => set_heap w (settle_promise (heap w) l s)
        end
  | _ => w
  end.

(** User code calls the [i]-th callback it holds with [arg], in a job of
    its own.  The two callbacks of a completion run as they are.  A call of
    the last callback is the job [Notify], which the job loop runs like the
    one a completion queues. *)
Definition invoke (w : world) (i : nat) (arg : jsval) : world :=
  match held w !! i with
  | Some (OnFulfilled promise env resolvable id) =>
      (onFulfilled w promise env resolvable id arg).1
  | Some (OnRejected promise env resolvable id fullPathname) =>
      (onRejected w promise env resolvable id fullPathname arg).1
  | Some (OnDidUpdate id) =>
      set_reactions w (reactions w ++ [Notify (truthy arg) id])
  | _ => w
  end.

(** What can happen to a resolver: user code calls it, user code settles a
    promise, the job loop runs a reaction, user code calls a callback it was
    handed.  A run is any sequence of these, so that what holds of every run
    holds of every order in which the jobs can be scheduled. *)
Inductive action :=
| Call (c : api_call)
| Settle (l : loc) (s : settlement)
| React (i : nat)
| Invoke (i : nat) (arg : jsval).

Definition step (w : world) (a : action) : world :=
  match a with
  | Call c => fst (exec_call w c)
  | Settle l s => settle w l s
  | React i => react w i
  | Invoke i arg => invoke w i arg
  end.

Definition run (w : world) (actions : list action) : world :=
  fold_left step actions w.

(** ** Reading the log *)

Definition is_invocation (env : nat) (resolvable : fn) (ev : event) : bool :=
  match ev with
  | EvResolvable env' resolvable' => Nat.eqb env' env && Nat.eqb resolvable' resolvable
  | _ => false
  end.

(** How often the resolvable was called for the environment. *)
Definition invocations (env : nat) (resolvable : fn) (tr : list event) : nat :=
  length (filter (λ ev, is_invocation env resolvable ev = true) tr).

(** The listeners that were called, in order. *)
Definition listener_calls (tr : list event) : list fn :=
  omap (λ ev, match ev with EvListener l => Some l | _ => None end) tr.

(** The listeners of a snapshot whose array holds [id] in the heap [h], in
    order. *)
Definition subscribed (h : list cell) (snapshot : list (fn * loc)) (id : Z) : list fn :=
  (filter (λ entry, indexOf_found h (snd entry) id = Some true) snapshot).*1.

(** A record with status [Error] carries a truthy [error]. *)
Definition error_truthy (r : Resolution) : Prop :=
  status r = Error → ∃ e, error r = Some e ∧ truthy e = true.

(** How the table and the log of a later world [w'] relate to those of an
    earlier world [w]: an entry stays, with its id; an entry that is new or
    replaced is well formed; a resolvable that has an entry is not called. *)
Record evolves (w w' : world) : Prop := mkEvolves {
  ev_stays : ∀ env f r, lookup_result w env f = Some r →
    ∃ r', lookup_result w' env f = Some r' ∧ id r' = id r;
  ev_fresh : ∀ env f r', lookup_result w' env f = Some r' →
    lookup_result w env f = Some r' ∨ error_truthy r';
  ev_quiet : ∀ env f, is_Some (lookup_result w env f) →
    invocations env f (trace w') = invocations env f (trace w);
}.



(** ** Further invariants of the table *)

(** The fields a record carries for its status: a [Ready] record has a
    [value] and no [error], a [Busy] record has neither, an [Error] record has
    a truthy [error] and no [value]. *)
Definition record_shape (r : Resolution) : Prop :=
  match status r with
  | Ready => is_Some (value r) ∧ error r = None
  | Busy => value r = None ∧ error r = None
  | Error => value r = None ∧ ∃ e, error r = Some e ∧ truthy e = true
  end.

(** The ids of the table against the counter: the counter is between 1 and
    2^53, every id was taken from it before, and below 2^53 no two entries
    share an id. *)
Definition ids_in_order (w : world) : Prop :=
  1 ≤ nextId w ≤ 2 ^ 53 ∧
  (∀ env f r, lookup_result w env f = Some r →
     1 ≤ id r ∧ (id r < nextId w ∨ id r = 2 ^ 53)) ∧
  (∀ env f r env' f' r',
     lookup_result w env f = Some r → lookup_result w env' f' = Some r' →
     id r = id r' → id r < 2 ^ 53 → env = env' ∧ f = f').

(** ** Basic facts about the table and the log *)

Lemma lookup_result_set_result w env f r env' f' :
  lookup_result (set_result w env f r) env' f' =
  if decide (env' = env ∧ f' = f) then Some r else lookup_result w env' f'.
Proof.
  unfold lookup_result, table, set_result; simpl.
  case_decide as H.
  - destruct H as [-> ->]. rewrite lookup_insert_eq. simpl. apply lookup_insert_eq.
  - destruct (decide (env = env')) as [->|Hne].
    + rewrite lookup_insert_eq; simpl.
      rewrite lookup_insert_ne; [done|]. intros ->. by apply H.
    + by rewrite lookup_insert_ne.
Qed.

Lemma lookup_result_create w env env' f' :
  results w !! env = None →
  lookup_result (set_results w (<[env := ∅]> (results w))) env' f' = lookup_result w env' f'.
Proof.
  intros Hnone. unfold lookup_result, table; simpl.
  destruct (decide (env = env')) as [->|Hne].
  - by rewrite lookup_insert_eq, Hnone.
  - by rewrite lookup_insert_ne.
Qed.

Lemma lookup_result_with_table w env env' f' :
  lookup_result (with_table w env) env' f' = lookup_result w env' f'.
Proof.
  unfold with_table. destruct (results w !! env) eqn:E; [done|].
  by apply lookup_result_create.
Qed.

Lemma data_promise_with_table w env d :
  data_promise (with_table w env) env d = data_promise w env d.
Proof.
  unfold data_promise.
  replace (d ≫= lookup_result (with_table w env) env) with (d ≫= lookup_result w env).
  - unfold with_table. by destruct (results w !! env).
  - destruct d; simpl; [|done]. by rewrite lookup_result_with_table.
Qed.

Lemma invocations_snoc env f tr ev :
  invocations env f (tr ++ [ev]) =
  (invocations env f tr + if is_invocation env f ev then 1 else 0)%nat.
Proof.
  unfold invocations. rewrite filter_app, length_app. f_equal.
  destruct (is_invocation env f ev) eqn:E.
  - by rewrite filter_cons_True.
  - rewrite filter_cons_False; [done|]. by rewrite E.
Qed.

Lemma is_invocation_true env f ev :
  is_invocation env f ev = true ↔ ev = EvResolvable env f.
Proof.
  destruct ev as [env' f'| |]; simpl; [|done..].
  rewrite andb_true_iff, !Nat.eqb_eq. split; [intros [-> ->]; done|].
  intros [= -> ->]; done.
Qed.

Lemma listener_calls_snoc tr ev :
  listener_calls (tr ++ [ev]) =
  listener_calls tr ++ match ev with EvListener l => [l] | _ => [] end.
Proof. unfold listener_calls. rewrite omap_app. by destruct ev. Qed.

(** ** [then] and [listenForChanges] *)

Lemma is_promise_isPromiseLike h v : is_promise h v = true → isPromiseLike h v = true.
Proof.
  unfold is_promise, isPromiseLike, get. destruct v as [| | | | | |l| |g]; try done.
  by destruct (h !! l) as [[]|].
Qed.

Lemma method_then_promise h v : is_promise h v = true → method_then h v = ThenNative.
Proof.
  intros H. unfold method_then. rewrite H. unfold is_promise, get in *.
  destruct v as [| | | | | |l| |g]; try done. by destruct (h !! l) as [[]|].
Qed.

(** A value with a [then] that can be called is promise-shaped. *)
Lemma thenable_isPromiseLike h v : thenable h v = true → isPromiseLike h v = true.
Proof.
  unfold thenable, isPromiseLike. destruct v as [| | | | | |l| |g]; try done.
  simpl. by destruct (match h !! l with Some _ => _ | None => _ end).
Qed.

Lemma method_then_thenable h v : thenable h v = false → method_then h v = ThenNone.
Proof. unfold thenable, method_then. by destruct (get h v "then"). Qed.

Lemma is_promise_thenable h v : is_promise h v = true → thenable h v = true.
Proof.
  unfold is_promise, thenable, get. destruct v as [| | | | | |l| |g]; try done.
  by destruct (h !! l) as [[]|].
Qed.

Lemma then_extractDefault_promise h rs l :
  is_promise h (VObj l) = true →
  then_extractDefault h rs (VObj l) =
  (h ++ [Promise Pending], Return (VObj (length h), rs ++ [Unwrap l (length h)])).
Proof. intros H. unfold then_extractDefault. by rewrite (method_then_promise _ _ H). Qed.



(** The reactions [then_extractDefault] returns are the old ones, with the
    unwrapping added for a promise. *)
Lemma then_extractDefault_reactions h rs v h' p rs' :
  then_extractDefault h rs v = (h', Return (p, rs')) →
  rs' = rs ∨ ∃ l, v = VObj l ∧ is_promise h v = true ∧ rs' = rs ++ [Unwrap l (length h)].
Proof.
  unfold then_extractDefault, method_then.
  destruct (get h v "then") eqn:Hget; try (by intros [=]).
  - destruct (is_promise h v) eqn:Hp; [|by intros [=]].
    destruct v as [| | | | | |l| |g]; try (by intros [=]).
    intros [= <- <- <-]. right. by exists l.
  - destruct (then_body _ _ _ _) as [[p0|e] h0]; [|by intros [=]].
    intros [= <- <- <-]. by left.
Qed.

Lemma throw_TypeError_frame {A} w :
  let w' := (throw_TypeError (A:=A) w).1 in
  results w' = results w ∧ nextId w' = nextId w ∧ listenerIds w' = listenerIds w ∧
  trace w' = trace w ∧ reactions w' = reactions w ∧ held w' = held w.
Proof. done. Qed.

(** What the second [then] leaves alone. *)
Lemma then_didUpdate_frame w next n :
  let w' := (then_didUpdate w next n).1 in
  results w' = results w ∧ nextId w' = nextId w ∧ listenerIds w' = listenerIds w ∧
  trace w' = trace w ∧ reactions w `prefix_of` reactions w'.
Proof.
  cbv zeta. unfold then_didUpdate.
  destruct (method_then (heap w) next) as [|g|].
  - destruct next; try done. simpl. repeat split; by apply prefix_app_r.
  - cbn [heap set_held]. by destruct (then_body _ _ _ _) as [[v|e] h].
  - by destruct next.
Qed.

(** What [listenForChanges] leaves alone. *)
Lemma listenForChanges_frame w p env f n path :
  let w' := (listenForChanges w p env f n path).1 in
  results w' = results w ∧ nextId w' = nextId w ∧ listenerIds w' = listenerIds w ∧
  trace w' = trace w ∧ reactions w `prefix_of` reactions w'.
Proof.
  cbv zeta. unfold listenForChanges. destruct (method_then (heap w) p) as [|g|].
  - simpl. repeat split; by apply prefix_app_r.
  - cbv zeta. cbn [heap set_held]. destruct (then_body _ _ _ _) as [[v|e] h]; [|done].
    by destruct (then_didUpdate_frame
                   (set_heap (set_held w (held w ++
                      [OnFulfilled p env f n; OnRejected p env f n path])) h) v n)
      as (-> & -> & -> & -> & ?).
  - done.
Qed.


(** On a promise. *)
Lemma listenForChanges_promise w p env f n path :
  is_promise (heap w) p = true →
  listenForChanges w p env f n path =
  (set_reactions w (reactions w ++ [Changes p env f n path]), Return tt).
Proof. intros H. unfold listenForChanges. by rewrite (method_then_promise _ _ H). Qed.

(** ** [resolve], case by case *)

Lemma resolve_hit w env f d r :
  lookup_result w (env_ref env) f = Some r →
  resolve w env f d = (w, Return r).
Proof.
  intros H. unfold resolve.
  fold (lookup_result (with_table w (env_ref env)) (env_ref env) f).
  rewrite lookup_result_with_table, H.
  unfold with_table, lookup_result, table in *.
  destruct (results w !! env_ref env); [done|]. simpl in H. by rewrite lookup_empty in H.
Qed.

Lemma resolve_miss w env f d :
  lookup_result w (env_ref env) f = None →
  resolve w env f d =
  let w1 := at_call w (env_ref env) f d in
  match resolvable_body f env (data_promise w (env_ref env) d).2 (heap w1) with
  | (Throw e, h) => (set_heap w1 h, Throw e)
  | (Return maybeValue, h) =>
      if negb (isPromiseLike h maybeValue) then
        let result :=
          {| id := nextId w; status := Ready; value := Some maybeValue;
             promise := (Promise_resolve h maybeValue).2; error := None |} in
        (set_result (set_heap w1 (Promise_resolve h maybeValue).1) (env_ref env) f result,
         Return result)
      else
        match then_extractDefault h (reactions w1) maybeValue with
        | (h, Throw e) => (set_heap w1 h, Throw e)
        | (h, Return (promise, rs)) =>
            let result :=
              {| id := nextId w; status := Busy; promise := promise;
                 value := None; error := None |} in
            match listenForChanges
                    (set_result (set_reactions (set_heap w1 h) rs) (env_ref env) f result)
                    promise (env_ref env) f (nextId w)
                    (joinPaths (pathname env) (unmatchedPathnamePart env)) with
            | (w2, Return _) => (w2, Return result)
            | (w2, Throw e) => (w2, Throw e)
            end
        end
  end.
Proof.
  intros H. unfold resolve.
  fold (lookup_result (with_table w (env_ref env)) (env_ref env) f).
  rewrite lookup_result_with_table, H, data_promise_with_table.
  unfold at_call.
  destruct (data_promise w (env_ref env) d) as [h0 dataPromise]; simpl.
  assert (nextId (with_table w (env_ref env)) = nextId w) as ->.
  { unfold with_table. by destruct (results w !! env_ref env). }
  destruct (resolvable_body f env dataPromise h0) as [[v|e] h]; [|done].
  destruct (isPromiseLike h v); simpl; [done|].
  by destruct (Promise_resolve h v).
Qed.

(** The fields of the world a first call leaves, against the world at the
    call: the counter, the registry and the log are the same, reactions are
    only added, and the table is the same when [resolve] throws at line 73
    or 85, and has one new entry, for the key, in every other case. *)
Lemma resolve_miss_fields w env f d :
  lookup_result w (env_ref env) f = None →
  let w1 := at_call w (env_ref env) f d in
  ∃ w' c,
    resolve w env f d = (w', c) ∧
    nextId w' = nextId w1 ∧ listenerIds w' = listenerIds w1 ∧ trace w' = trace w1 ∧
    reactions w1 `prefix_of` reactions w' ∧
    ((results w' = results w1 ∧ ∃ e, c = Throw e) ∨
     ∃ r, results w' = results (set_result w1 (env_ref env) f r) ∧
          id r = nextId w ∧ error r = None ∧
          (status r = Ready ∧ is_Some (value r) ∧ c = Return r ∨
           status r = Busy ∧ value r = None ∧ (c = Return r ∨ ∃ e, c = Throw e))).
Proof.
  intros H. rewrite (resolve_miss _ _ _ _ H). cbv zeta.
  set (w1 := at_call w (env_ref env) f d).
  destruct (resolvable_body _ _ _ _) as [[v|e] h].
  2: { eexists _, _. split; [done|]. repeat split; [done|]. left. eauto. }
  destruct (isPromiseLike h v); cbn [negb].
  2: { eexists _, _. split; [done|]. repeat split; [done|]. right. eexists.
       split; [done|]. split; [done|]. split; [done|]. left. by eauto. }
  destruct (then_extractDefault h (reactions w1) v) as [h' [[p rs]|e]] eqn:Ht.
  2: { eexists _, _. split; [done|]. repeat split; [done|]. left. eauto. }
  set (r := {| id := nextId w; status := Busy; promise := p; value := None; error := None |}).
  set (w2 := set_result (set_reactions (set_heap w1 h') rs) (env_ref env) f r).
  destruct (listenForChanges_frame w2 p (env_ref env) f (nextId w)
              (joinPaths (pathname env) (unmatchedPathnamePart env)))
    as (Hr & Hn & Hl & Htr & Hrs).
  assert (reactions w1 `prefix_of` rs) as Hpre.
  { destruct (then_extractDefault_reactions _ _ _ _ _ _ Ht) as [->|(l & _ & _ & ->)];
      [done|by apply prefix_app_r]. }
  destruct (listenForChanges w2 _ _ _ _ _) as [w3 c]. cbn [fst] in *.
  exists w3, (match c with Return _ => Return r | Throw e => Throw e end).
  split; [by destruct c|]. rewrite Hn, Hl, Htr. repeat split; [by etrans|].
  right. exists r. rewrite Hr. split; [done|]. split; [done|]. split; [done|].
  right. split; [done|]. split; [done|]. destruct c; eauto.
Qed.

Lemma at_call_fields w env f d :
  let w1 := at_call w env f d in
  nextId w1 = js_increment (nextId w) ∧ results w1 = results (with_table w env) ∧
  listenerIds w1 = listenerIds w ∧ reactions w1 = reactions w ∧ held w1 = held w ∧
  trace w1 = trace w ++ [EvResolvable env f] ∧
  heap w1 = (data_promise w env d).1.
Proof. cbv zeta. simpl. unfold with_table. by destruct (results w !! env). Qed.

Lemma resolve_sync w env f d v h :
  lookup_result w (env_ref env) f = None →
  resolvable_body f env (data_promise w (env_ref env) d).2
    (data_promise w (env_ref env) d).1 = (Return v, h) →
  isPromiseLike h v = false →
  resolve w env f d =
  let result := {| id := nextId w; status := Ready; value := Some v;
                   promise := VObj (length h); error := None |} in
  (set_result (set_heap (at_call w (env_ref env) f d) (h ++ [Promise (Fulfilled v)]))
     (env_ref env) f result,
   Return result).
Proof.
  intros Hmiss Hbody Hshape. rewrite (resolve_miss _ _ _ _ Hmiss). cbv zeta.
  change (heap (at_call w (env_ref env) f d)) with (data_promise w (env_ref env) d).1.
  rewrite Hbody, Hshape. simpl. unfold Promise_resolve.
  destruct (is_promise h v) eqn:E; [|done].
  apply is_promise_isPromiseLike in E. congruence.
Qed.

Lemma resolve_async w env f d l h :
  lookup_result w (env_ref env) f = None →
  resolvable_body f env (data_promise w (env_ref env) d).2
    (data_promise w (env_ref env) d).1 = (Return (VObj l), h) →
  is_promise h (VObj l) = true →
  resolve w env f d =
  let result := {| id := nextId w; status := Busy; value := None;
                   promise := VObj (length h); error := None |} in
  (set_reactions
     (set_result
        (set_heap (at_call w (env_ref env) f d) (h ++ [Promise Pending]))
        (env_ref env) f result)
     (reactions w ++
      [Unwrap l (length h);
       Changes (VObj (length h)) (env_ref env) f (nextId w)
         (joinPaths (pathname env) (unmatchedPathnamePart env))]),
   Return result).
Proof.
  intros Hmiss Hbody Hprom. rewrite (resolve_miss _ _ _ _ Hmiss). cbv zeta.
  change (heap (at_call w (env_ref env) f d)) with (data_promise w (env_ref env) d).1.
  rewrite Hbody, (is_promise_isPromiseLike _ _ Hprom). simpl negb. cbv iota.
  rewrite (then_extractDefault_promise _ _ _ Hprom).
  rewrite listenForChanges_promise.
  2: { simpl. by rewrite lookup_app_r, Nat.sub_diag. }
  destruct (at_call_fields w (env_ref env) f d) as (_ & _ & _ & Hrs & _).
  cbv zeta in Hrs. cbn [reactions set_reactions set_result set_results]. rewrite Hrs.
  by rewrite <- app_assoc.
Qed.


Lemma resolve_trace w env f d :
  trace (resolve w env f d).1 =
  trace w ++ match lookup_result w (env_ref env) f with
             | Some _ => []
             | None => [EvResolvable (env_ref env) f]
             end.
Proof.
  destruct (lookup_result w (env_ref env) f) as [r|] eqn:H.
  { rewrite (resolve_hit _ _ _ _ _ H). simpl. by rewrite app_nil_r. }
  destruct (resolve_miss_fields w env f d H) as (w' & c & -> & _ & _ & Ht & _).
  cbn [fst]. rewrite Ht.
  by destruct (at_call_fields w (env_ref env) f d) as (_ & _ & _ & _ & _ & -> & _).
Qed.

Lemma lookup_result_results w w' env f :
  results w' = results w → lookup_result w' env f = lookup_result w env f.
Proof. intros H. unfold lookup_result, table. by rewrite H. Qed.

Lemma lookup_result_at_call w env f d env' f' :
  lookup_result (at_call w env f d) env' f' = lookup_result w env' f'.
Proof. apply (lookup_result_with_table w env). Qed.

Lemma resolve_lookup_other w env f d env' f' :
  ¬ (env' = env_ref env ∧ f' = f) →
  lookup_result (resolve w env f d).1 env' f' = lookup_result w env' f'.
Proof.
  intros Hne. destruct (lookup_result w (env_ref env) f) as [r|] eqn:H.
  { by rewrite (resolve_hit _ _ _ _ _ H). }
  destruct (resolve_miss_fields w env f d H)
    as (w' & c & -> & _ & _ & _ & _ & [[Hr _]|(r & Hr & _)]); cbn [fst];
    rewrite (lookup_result_results _ _ _ _ Hr).
  - apply lookup_result_at_call.
  - rewrite lookup_result_set_result, decide_False by done. apply lookup_result_at_call.
Qed.

(** The entry a first call leaves under its key. *)
Lemma resolve_lookup_key w env f d :
  lookup_result w (env_ref env) f = None →
  match (resolve w env f d).2 with
  | Return r => lookup_result (resolve w env f d).1 (env_ref env) f = Some r
  | Throw _ =>
      lookup_result (resolve w env f d).1 (env_ref env) f = None ∨
      ∃ r, lookup_result (resolve w env f d).1 (env_ref env) f = Some r ∧
           status r = Busy ∧ id r = nextId w ∧ value r = None ∧ error r = None
  end.
Proof.
  intros H.
  destruct (resolve_miss_fields w env f d H)
    as (w' & c & -> & _ & _ & _ & _ & [[Hr [e ->]]|(r & Hr & Hid & He & Hst)]); cbn [fst snd].
  - left. rewrite (lookup_result_results _ _ _ _ Hr). by rewrite lookup_result_at_call.
  - assert (lookup_result w' (env_ref env) f = Some r) as Hl.
    { rewrite (lookup_result_results _ _ _ _ Hr), lookup_result_set_result.
      by rewrite decide_True. }
    destruct Hst as [(_ & _ & ->)|(Hb & Hv & [->|[e ->]])]; [done|done|].
    right. by exists r.
Qed.
(** ** The callbacks of a completion *)

(** The record the fulfilment callback stores. *)
Lemma onFulfilled_current w promise env f n value currentResult :
  lookup_result w env f = Some currentResult → id currentResult = n →
  onFulfilled w promise env f n value =
  (set_result w env f
     {| id := n; status := Ready; promise := promise; error := None;
        value := Some value |},
   true).
Proof. intros H E. unfold onFulfilled. by rewrite H, E, Z.eqb_refl. Qed.

(** The record the rejection callback stores. *)
Lemma onRejected_current w promise env f n path error currentResult :
  lookup_result w env f = Some currentResult → id currentResult = n →
  onRejected w promise env f n path error =
  (set_result
     (set_heap w (error_or_new (annotate (heap w) error path) error).1) env f
     {| id := n; status := Error; promise := promise;
        error := Some (error_or_new (annotate (heap w) error path) error).2;
        value := None |},
   true).
Proof.
  intros H E. unfold onRejected. rewrite H, E, Z.eqb_refl. cbn [heap set_heap].
  by destruct (error_or_new _ error).
Qed.

(** The two callbacks of a stale completion. *)
Lemma onFulfilled_stale w promise env f n value :
  ¬ (∃ currentResult, lookup_result w env f = Some currentResult ∧ id currentResult = n) →
  onFulfilled w promise env f n value = (w, false).
Proof.
  intros Hstale. unfold onFulfilled.
  destruct (lookup_result w env f) as [r|] eqn:H; [|done].
  destruct (Z.eqb_spec (id r) n) as [E|]; [|done]. destruct Hstale; eauto.
Qed.

Lemma onRejected_stale w promise env f n path error :
  ¬ (∃ currentResult, lookup_result w env f = Some currentResult ∧ id currentResult = n) →
  onRejected w promise env f n path error =
  (set_heap w (annotate (heap w) error path), false).
Proof.
  intros Hstale. unfold onRejected.
  destruct (lookup_result w env f) as [r|] eqn:H; [|done].
  destruct (Z.eqb_spec (id r) n) as [E|]; [|done]. destruct Hstale; eauto.
Qed.

Lemma error_or_new_truthy h e : truthy (error_or_new h e).2 = true.
Proof. unfold error_or_new. by destruct (truthy e) eqn:E. Qed.

(** ** The path annotation and the heap *)

(** [annotate] on a not-found error object. *)
Lemma annotate_not_found h l fields path :
  h !! l = Some (Obj ClsNotFoundError fields) →
  annotate h (VObj l) path =
  if truthy (default VUndefined (fields !! "pathname")) then h
  else <[l := Obj ClsNotFoundError (<["pathname" := VStr path]> fields)]> h.
Proof.
  intros H. unfold annotate, instanceof_NotFoundError, get, set_property. rewrite H. simpl.
  by destruct (truthy _).
Qed.

(** [annotate] leaves everything but a not-found error alone. *)
Lemma annotate_other h e path :
  instanceof_NotFoundError h e = false → annotate h e path = h.
Proof. intros H. unfold annotate. by rewrite H. Qed.

Lemma annotate_set h e path :
  truthy (get h e "pathname") = true → annotate h e path = h.
Proof. intros H. unfold annotate. rewrite H. by rewrite andb_false_r. Qed.

Lemma annotate_idempotent h e path :
  annotate (annotate h e path) e path = annotate h e path.
Proof.
  destruct (instanceof_NotFoundError h e) eqn:Hnf.
  2: { rewrite (annotate_other _ _ _ Hnf). by apply annotate_other. }
  destruct e as [| | | | | |l| |g]; try done.
  unfold instanceof_NotFoundError in Hnf.
  destruct (h !! l) as [[[] fields| |]|] eqn:Hl; try done.
  rewrite (annotate_not_found _ _ _ _ Hl).
  destruct (truthy (default VUndefined (fields !! "pathname"))) eqn:Ht.
  - rewrite (annotate_not_found _ _ _ _ Hl). by rewrite Ht.
  - assert (l < length h)%nat as Hlt by (by eapply lookup_lt_Some).
    erewrite annotate_not_found by (by apply list_lookup_insert_eq).
    rewrite lookup_insert_eq. simpl. destruct (negb _); [done|].
    by rewrite list_insert_insert_eq, insert_insert_eq.
Qed.

Lemma promise_state_annotate h e path p :
  promise_state (annotate h e path) p = promise_state h p.
Proof.
  unfold annotate. destruct (_ && _); [|done].
  unfold set_property. destruct e as [| | | | | |l| |g]; try done.
  destruct (h !! l) as [[c fields|s|ids]|] eqn:Hl; try done.
  destruct p as [| | | | | |l'| |g']; try done. simpl.
  destruct (decide (l = l')) as [<-|Hne].
  - rewrite list_lookup_insert_eq by (by eapply lookup_lt_Some). by rewrite Hl.
  - by rewrite list_lookup_insert_ne.
Qed.

Lemma promise_state_alloc h c p s :
  promise_state h p = Some s → promise_state (h ++ [c]) p = Some s.
Proof.
  destruct p as [| | | | | |l| |g]; try done. simpl.
  destruct (h !! l) as [c'|] eqn:Hl; [|done].
  by rewrite (lookup_app_l_Some _ _ _ _ Hl).
Qed.

Lemma promise_state_settle h l s :
  (l < length h)%nat → promise_state (settle_promise h l s) (VObj l) = Some s.
Proof. intros H. unfold settle_promise. simpl. by rewrite list_lookup_insert_eq. Qed.

Lemma extractDefault_spec h v :
  extractDefault h v =
  match v with
  | VObj l =>
      match h !! l with
      | Some (Obj _ fields) => default v (fields !! "default")
      | _ => v
      end
  | _ => v
  end.
Proof.
  unfold extractDefault, hasDefault, has_property, get.
  destruct v as [| |b|n| |s|l| |g]; simpl; try done.
  - by destruct b.
  - by destruct (negb _).
  - by destruct (negb _).
  - destruct (h !! l) as [[c fields|s|ids]|]; try done.
    by destruct (fields !! "default").
Qed.

(** ** Invariants of every run *)

(** A property of worlds that every primitive step keeps is kept by every
    operation of the resolver and of the run time, and so by every run.  The
    events logged outside [resolve] are calls of the resolver by user code
    and calls of listeners. *)
Section Invariant.

Variable P : world → Prop.
Hypothesis P_resolve : ∀ w env f d, P w → P (resolve w env f d).1.
Hypothesis P_onFulfilled : ∀ w p env f n v, P w → P (onFulfilled w p env f n v).1.
Hypothesis P_onRejected : ∀ w p env f n path e, P w → P (onRejected w p env f n path e).1.
Hypothesis P_listen : ∀ w l ids, P w → P (listen w l ids).
Hypothesis P_unlisten : ∀ w l, P w → P (unlisten w l).
Hypothesis P_log : ∀ w ev, (∀ env f, ev ≠ EvResolvable env f) → P w → P (log w ev).
Hypothesis P_heap : ∀ w h, P w → P (set_heap w h).
Hypothesis P_reactions : ∀ w rs, P w → P (set_reactions w rs).

Lemma exec_call_invariant w c : P w → P (exec_call w c).1.
Proof.
  intros H. unfold exec_call.
  assert (P (log w (EvApi c))) as Hlog by (apply P_log; [intros ? ? [=]|done]).
  destruct c as [env f d|l ids|l|a ids]; cbn [fst].
  - pose proof (P_resolve _ env f d Hlog) as H'.
    by destruct (resolve _ env f d) as [w' [r|e]].
  - by apply P_listen.
  - by apply P_unlisten.
  - by apply P_heap.
Qed.

Lemma exec_calls_invariant cs : ∀ w, P w → P (exec_calls w cs).1.
Proof.
  induction cs as [|c cs IH]; intros w H; simpl; [done|].
  pose proof (exec_call_invariant w c H) as H'.
  destruct (exec_call w c) as [w' [|]]; [done|]. by apply IH.
Qed.

Lemma call_listener_invariant w l : P w → P (call_listener w l).1.
Proof.
  intros H. unfold call_listener. destruct (listener_body l w) as [cs throws].
  assert (P (log w (EvListener l))) as Hlog by (apply P_log; [intros ? ? [=]|done]).
  pose proof (exec_calls_invariant cs _ Hlog) as H'.
  by destruct (exec_calls _ cs) as [w' threw].
Qed.

Lemma fanout_invariant snapshot n : ∀ w, P w → P (fanout w snapshot n).
Proof.
  induction snapshot as [|[l ids] rest IH]; intros w H; simpl; [done|].
  destruct (indexOf_found (heap w) ids n) as [[|]|]; [|by apply IH|done].
  pose proof (call_listener_invariant w l H) as H'.
  destruct (call_listener w l) as [w' [|]]; [done|]. by apply IH.
Qed.

Lemma notify_invariant w didUpdate n : P w → P (notify w didUpdate n).
Proof. intros H. unfold notify. destruct didUpdate; [by apply fanout_invariant|done]. Qed.

Lemma run_reaction_invariant w r s : P w → P (run_reaction w r s).
Proof.
  intros H. destruct r as [src dl|src dl|p env f n path|b n|src n]; simpl.
  - destruct s as [|v|e]; [done| |by apply P_heap].
    destruct (resolve_promise _ _ dl _). by apply P_reactions, P_heap.
  - destruct s; [done|by apply P_heap|by apply P_heap].
  - destruct s as [|v|e]; [done| |].
    + pose proof (P_onFulfilled w p env f n v H) as H'.
      destruct (onFulfilled w p env f n v). by apply P_reactions.
    + pose proof (P_onRejected w p env f n path e H) as H'.
      destruct (onRejected w p env f n path e). by apply P_reactions.
  - by apply notify_invariant.
  - destruct s; [done|by apply P_reactions|done].
Qed.

Lemma react_invariant w i : P w → P (react w i).
Proof.
  intros H. unfold react. destruct (reactions w !! i) as [r|]; [|done]. cbv zeta.
  destruct (awaited r) as [p|]; [|by apply run_reaction_invariant, P_reactions].
  destruct (promise_state _ _) as [[| |]|]; try done;
    by apply run_reaction_invariant, P_reactions.
Qed.

Lemma settle_invariant w l s : P w → P (settle w l s).
Proof.
  intros H. unfold settle. destruct (heap w !! l) as [[|[| |]|]|]; try done.
  destruct (existsb _ _); [done|]. destruct s as [|v|e]; [done| |by apply P_heap].
  destruct (resolve_promise _ _ l v). by apply P_reactions, P_heap.
Qed.

Lemma invoke_invariant w i arg : P w → P (invoke w i arg).
Proof.
  intros H. unfold invoke. destruct (held w !! i) as [[]|]; try done.
  - by apply P_onFulfilled.
  - by apply P_onRejected.
  - by apply P_reactions.
Qed.

Lemma step_invariant w a : P w → P (step w a).
Proof.
  intros H. destruct a as [c|l s|i|i arg]; simpl.
  - by apply exec_call_invariant.
  - by apply settle_invariant.
  - by apply react_invariant.
  - by apply invoke_invariant.
Qed.

Lemma run_invariant actions : ∀ w, P w → P (run w actions).
Proof.
  induction actions as [|a actions IH]; intros w H; simpl; [done|].
  by apply IH, step_invariant.
Qed.

End Invariant.

(** ** Every operation of the resolver makes the world evolve *)

Lemma evolves_refl w : evolves w w.
Proof. split; eauto. Qed.

Lemma evolves_trans w1 w2 w3 : evolves w1 w2 → evolves w2 w3 → evolves w1 w3.
Proof.
  intros [S1 F1 Q1] [S2 F2 Q2]. split.
  - intros env f r H. destruct (S1 _ _ _ H) as (r' & H' & E').
    destruct (S2 _ _ _ H') as (r'' & H'' & E''). exists r''. split; [done|congruence].
  - intros env f r H. destruct (F2 _ _ _ H) as [H'|]; [|by right]. by apply F1.
  - intros env f H. rewrite <- (Q1 _ _ H). apply Q2.
    destruct H as [r H]. destruct (S1 _ _ _ H) as (r' & -> & _). done.
Qed.

(** A step that leaves the table and the log alone. *)
Lemma evolves_same w w' :
  results w' = results w → trace w' = trace w → evolves w w'.
Proof.
  intros Hr Ht. split; unfold lookup_result, table; rewrite ?Hr, ?Ht; eauto.
Qed.

Lemma evolves_step w w' :
  (∀ env f,
     lookup_result w' env f = lookup_result w env f ∨
     ∃ r, lookup_result w' env f = Some r ∧ error_truthy r ∧
          ∀ r0, lookup_result w env f = Some r0 → id r = id r0) →
  (∀ env f, is_Some (lookup_result w env f) →
     invocations env f (trace w') = invocations env f (trace w)) →
  evolves w w'.
Proof.
  intros Hl Ht. split; [| |done].
  - intros env f r0 H. destruct (Hl env f) as [E|(r & E & _ & Hid)].
    + exists r0. by rewrite E.
    + exists r. split; [done|]. by apply Hid.
  - intros env f r' H. destruct (Hl env f) as [E|(r & E & Hr & _)].
    + left. by rewrite <- E.
    + right. rewrite E in H. by injection H as <-.
Qed.

Lemma evolves_log w ev :
  (∀ env f, ev = EvResolvable env f → lookup_result w env f = None) →
  evolves w (log w ev).
Proof.
  intros Hev. apply evolves_step; [by left|].
  intros env f [r Hr]. simpl. rewrite invocations_snoc.
  destruct (is_invocation env f ev) eqn:E; [|lia].
  apply is_invocation_true in E. rewrite (Hev _ _ E) in Hr. done.
Qed.

Lemma resolve_evolves w env f d : evolves w (resolve w env f d).1.
Proof.
  destruct (lookup_result w (env_ref env) f) as [r|] eqn:H.
  { rewrite (resolve_hit _ _ _ _ _ H). apply evolves_refl. }
  destruct (resolve_miss_fields w env f d H)
    as (w' & c & -> & _ & _ & Ht & _ & Hres). cbn [fst].
  destruct (at_call_fields w (env_ref env) f d) as (_ & _ & _ & _ & _ & Ht1 & _).
  cbv zeta in Ht1. rewrite Ht1 in Ht.
  apply evolves_step.
  - intros env' f'. destruct Hres as [[Hr _]|(r & Hr & Hid & He & Hst)];
      rewrite (lookup_result_results _ _ _ _ Hr).
    + left. apply lookup_result_at_call.
    + rewrite lookup_result_set_result. case_decide as Hd.
      * right. exists r. split; [done|]. destruct Hd as [-> ->]. split.
        -- intros E. destruct Hst as [[E' _]|[E' _]]; congruence.
        -- intros r0. by rewrite H.
      * left. apply lookup_result_at_call.
  - intros env' f' [r0 Hr0]. rewrite Ht, invocations_snoc.
    destruct (is_invocation env' f' (EvResolvable (env_ref env) f)) eqn:E; [|lia].
    apply is_invocation_true in E. injection E as <- <-. congruence.
Qed.

Lemma onFulfilled_evolves w p env f n v : evolves w (onFulfilled w p env f n v).1.
Proof.
  unfold onFulfilled. destruct (lookup_result w env f) as [r0|] eqn:H; [|apply evolves_refl].
  destruct (id r0 =? n)%Z; [|apply evolves_refl]. simpl.
  apply evolves_step; [|done].
  intros env' f'. rewrite lookup_result_set_result. case_decide as Hd; [|by left].
  right. eexists. split; [done|]. destruct Hd as [-> ->]. split; [intros [=]|].
  intros r1. rewrite H. by intros [= ->].
Qed.

Lemma onRejected_evolves w p env f n path e :
  evolves w (onRejected w p env f n path e).1.
Proof.
  unfold onRejected. destruct (lookup_result w env f) as [r0|] eqn:H.
  2: { by apply evolves_same. }
  destruct (id r0 =? n)%Z.
  2: { by apply evolves_same. }
  pose proof (error_or_new_truthy (heap (set_heap w (annotate (heap w) e path))) e) as Ht.
  destruct (error_or_new _ e) as [h e']. simpl in *.
  apply evolves_step; [|done].
  intros env' f'. rewrite lookup_result_set_result. case_decide as Hd; [|by left].
  right. eexists. split; [done|]. destruct Hd as [-> ->]. split; [intros _; eauto|].
  intros r1. unfold lookup_result, table in *. simpl. rewrite H. by intros [= ->].
Qed.

Lemma run_evolves actions : ∀ w, evolves w (run w actions).
Proof.
  intros w. apply (run_invariant (evolves w)); [..|apply evolves_refl].
  - intros w' env f d H. eapply evolves_trans; [exact H|apply resolve_evolves].
  - intros w' p env f n v H. eapply evolves_trans; [exact H|apply onFulfilled_evolves].
  - intros w' p env f n path e H.
    eapply evolves_trans; [exact H|apply onRejected_evolves].
  - intros w' l ids H. eapply evolves_trans; [exact H|by apply evolves_same].
  - intros w' l H. eapply evolves_trans; [exact H|by apply evolves_same].
  - intros w' ev Hev H. eapply evolves_trans; [exact H|apply evolves_log].
    intros env f ->. by destruct (Hev env f).
  - intros w' h H. eapply evolves_trans; [exact H|by apply evolves_same].
  - intros w' rs H. eapply evolves_trans; [exact H|by apply evolves_same].
Qed.
(** ** A resolvable that returns is called at most once *)








(** ** Who is called during a notification *)

Lemma resolve_listener_calls w env f d :
  listener_calls (trace (resolve w env f d).1) = listener_calls (trace w).
Proof.
  rewrite resolve_trace. destruct (lookup_result _ _ _).
  - by rewrite app_nil_r.
  - rewrite listener_calls_snoc. by rewrite app_nil_r.
Qed.

Lemma exec_call_listener_calls w c :
  listener_calls (trace (exec_call w c).1) = listener_calls (trace w).
Proof.
  unfold exec_call.
  assert (listener_calls (trace (log w (EvApi c))) = listener_calls (trace w)) as Hl.
  { simpl. rewrite listener_calls_snoc. by rewrite app_nil_r. }
  destruct c as [env f d|l ids|l|a ids]; simpl fst; try done.
  pose proof (resolve_listener_calls (log w (EvApi (CallResolve env f d))) env f d) as H.
  destruct (resolve _ env f d) as [w' [r|e]]; simpl in *; congruence.
Qed.



Lemma subscribed_cons h l ids rest n :
  subscribed h ((l, ids) :: rest) n =
  if bool_decide (indexOf_found h ids n = Some true)
  then l :: subscribed h rest n else subscribed h rest n.
Proof. unfold subscribed. rewrite filter_cons. simpl. by case_decide; case_bool_decide. Qed.


Lemma subscribed_sublist h snapshot n : subscribed h snapshot n `sublist_of` snapshot.*1.
Proof. unfold subscribed. apply fmap_sublist, sublist_filter. Qed.



(** A pass for an id nobody is subscribed to changes nothing. *)
Lemma fanout_no_subscriber snapshot n : ∀ w,
  subscribed (heap w) snapshot n = [] → fanout w snapshot n = w.
Proof.
  induction snapshot as [|[l ids] rest IH]; intros w H; simpl; [done|].
  rewrite subscribed_cons in H.
  destruct (indexOf_found (heap w) ids n) as [[|]|]; [done| |done].
  rewrite bool_decide_eq_false_2 in H by done. by apply IH.
Qed.


Lemma Map_delete_keys m k : k ∉ (Map_delete m k).*1.
Proof.
  induction m as [|[k' v'] m IH]; csimpl; [apply not_elem_of_nil|].
  destruct (Nat.eqb_spec k' k) as [->|Hne]; [done|].
  csimpl. rewrite not_elem_of_cons. split; [congruence|done].
Qed.

Lemma Map_delete_sublist m k : Map_delete m k `sublist_of` m.
Proof.
  induction m as [|[k' v'] m IH]; csimpl; [done|].
  destruct (Nat.eqb k' k); [by apply sublist_cons|by apply sublist_skip].
Qed.

Lemma Map_set_keys m k v :
  (Map_set m k v).*1 = if bool_decide (k ∈ m.*1) then m.*1 else m.*1 ++ [k].
Proof.
  induction m as [|[k' v'] m IH]; csimpl; [done|].
  destruct (Nat.eqb_spec k' k) as [->|Hne]; csimpl.
  - by rewrite bool_decide_eq_true_2 by apply list_elem_of_here.
  - rewrite IH. destruct (bool_decide (k ∈ m.*1)) eqn:E.
    + apply bool_decide_eq_true in E.
      by rewrite bool_decide_eq_true_2 by (by apply list_elem_of_further).
    + apply bool_decide_eq_false in E.
      rewrite bool_decide_eq_false_2; [done|].
      rewrite not_elem_of_cons. split; [congruence|done].
Qed.

(** The keys of the registry stay distinct. *)
Lemma listen_NoDup w l ids :
  NoDup (listenerIds w).*1 → NoDup (listenerIds (listen w l ids)).*1.
Proof.
  intros H. simpl. rewrite Map_set_keys. case_bool_decide as E; [done|].
  apply NoDup_app. split; [done|]. split; [|apply NoDup_singleton].
  intros x Hx Hx'. apply list_elem_of_singleton in Hx' as ->. done.
Qed.

Lemma unlisten_NoDup w l :
  NoDup (listenerIds w).*1 → NoDup (listenerIds (unlisten w l)).*1.
Proof.
  intros H. simpl. eapply sublist_NoDup; [exact H|].
  apply fmap_sublist, Map_delete_sublist.
Qed.


Lemma resolve_listenerIds w env f d :
  listenerIds (resolve w env f d).1 = listenerIds w.
Proof.
  destruct (lookup_result w (env_ref env) f) as [r|] eqn:H.
  { by rewrite (resolve_hit _ _ _ _ _ H). }
  destruct (resolve_miss_fields w env f d H) as (w' & c & -> & _ & Hl & _). cbn [fst].
  by destruct (at_call_fields w (env_ref env) f d) as (_ & _ & <- & _).
Qed.

(** The keys of the registry are distinct in every world a resolver can
    reach. *)
Lemma run_NoDup actions : ∀ w,
  NoDup (listenerIds w).*1 → NoDup (listenerIds (run w actions)).*1.
Proof.
  apply (run_invariant (λ w, NoDup (listenerIds w).*1)); try done.
  - intros w env f d H. by rewrite resolve_listenerIds.
  - intros w p env f n v H. unfold onFulfilled.
    destruct (lookup_result w env f) as [r0|]; [|done]. by destruct (id r0 =? n).
  - intros w p env f n path e H. unfold onRejected.
    destruct (lookup_result w env f) as [r0|]; [|done].
    destruct (id r0 =? n); [|done]. by destruct (error_or_new _ e).
  - intros w l ids H. by apply listen_NoDup.
  - intros w l H. by apply unlisten_NoDup.
Qed.
(** ** The claims *)


(** C2. A completion (success or failure) of the attempt with id [n] that
    finds no record under its key, or a record with another id, does not
    touch the table and does not notify: both callbacks return without
    [true], so the last callback is queued with a falsy [didUpdate] and calls
    no listener; the table, the listener registry and the log stay as they
    were.  So the entry is replaced and listeners are notified only if a
    record with id [n] is still there. *)
Theorem stale_completion_discarded (w : world) (promise : jsval) (env : nat)
    (resolvable : fn) (n : Z) (fullPathname : string) :
  ¬ (∃ currentResult,
       lookup_result w env resolvable = Some currentResult ∧ id currentResult = n) →
  (∀ value, onFulfilled w promise env resolvable n value = (w, false)) ∧
  (∀ error, onRejected w promise env resolvable n fullPathname error =
              (set_heap w (annotate (heap w) error fullPathname), false)) ∧
  (∀ s, s ≠ Pending →
        let w' := run_reaction w (Changes promise env resolvable n fullPathname) s in
        results w' = results w ∧ listenerIds w' = listenerIds w ∧
        trace w' = trace w ∧ nextId w' = nextId w ∧
        reactions w' = reactions w ++ [Notify false n]) ∧
  (∀ w' s, run_reaction w' (Notify false n) s = w').
Proof.
  intros Hstale.
  pose proof (λ v, onFulfilled_stale w promise env resolvable n v Hstale) as Hf.
  pose proof (λ e, onRejected_stale w promise env resolvable n fullPathname e Hstale) as Hr.
  split; [exact Hf|]. split; [exact Hr|]. split; [|done].
  intros [|v|e] Hs; [done| |]; simpl; rewrite ?Hf, ?Hr; done.
Qed.



(** C5. [reduceStatuses] returns [Error] if either operand is [Error],
    otherwise [Busy] if either operand is [Busy], otherwise [Ready]; in
    particular it maps (Ready, Busy) to Busy, (Busy, Error) to Error and
    (Ready, Ready) to Ready, and it is commutative and associative. *)
Theorem reduceStatuses_algebra :
  (∀ x y, reduceStatuses x y =
     match x, y with
     | Error, _ | _, Error => Error
     | Busy, _ | _, Busy => Busy
     | Ready, Ready => Ready
     end) ∧
  reduceStatuses Ready Busy = Busy ∧
  reduceStatuses Busy Error = Error ∧
  reduceStatuses Ready Ready = Ready ∧
  (∀ x y, reduceStatuses x y = reduceStatuses y x) ∧
  (∀ x y z, reduceStatuses x (reduceStatuses y z) = reduceStatuses (reduceStatuses x y) z).
Proof.
  repeat split.
  - by intros [] [].
  - by intros [] [].
  - by intros [] [] [].
Qed.

(** C6. When there is no memoised resolution and the call of the resolvable
    returns a value that is not promise-shaped, [resolve] returns at once a
    Resolution with status [Ready], the id it took, that value, and a newly
    made promise that is already fulfilled with that value; and this
    Resolution is the one the table now holds. *)
Theorem resolve_synchronous (w : world) (env : Env) (resolvable : fn)
    (dataResolvable : option fn) (maybeValue : jsval) (h : list cell) :
  lookup_result w (env_ref env) resolvable = None →
  resolvable_body resolvable env (data_promise w (env_ref env) dataResolvable).2
    (data_promise w (env_ref env) dataResolvable).1 = (Return maybeValue, h) →
  isPromiseLike h maybeValue = false →
  ∃ w' p,
    let result := {| id := nextId w; status := Ready; value := Some maybeValue;
                     promise := p; error := None |} in
    resolve w env resolvable dataResolvable = (w', Return result) ∧
    lookup_result w' (env_ref env) resolvable = Some result ∧
    promise_state h p = None ∧
    promise_state (heap w') p = Some (Fulfilled maybeValue).
Proof.
  intros Hmiss Hbody Hshape.
  eexists _, (VObj (length h)). cbv zeta.
  split; [by apply resolve_sync|]. split; [|split].
  - rewrite lookup_result_set_result. by rewrite decide_True.
  - simpl. by rewrite lookup_ge_None_2.
  - simpl. by rewrite lookup_app_r, Nat.sub_diag.
Qed.

(** C7, amended.  When the promise of a resolvable is fulfilled with [v],
    the [then(extractDefault)] callback yields the value of the [default]
    property of [v] if [v] is an object with such a property, and [v] itself
    in every other case ([null], primitives, objects without [default]).
    If that result has no [then] that can be called, it is the value the
    downstream promise is fulfilled with, and the value of the [Ready] record
    the completion stores.  If it has one, the run time calls it to follow the
    result: on a promise, the downstream promise stays pending and later
    takes the outcome of that promise; the built-in [then] on anything else
    throws a [TypeError], which the downstream promise is rejected with; a
    [then] of user code that returns leaves the downstream promise to be
    settled by user code, and one that throws rejects it. *)
Theorem default_unwrapped (w : world) (src derived : loc) (v : jsval) :
  heap w !! derived = Some (Promise Pending) →
  let x := extractDefault (heap w) v in
  x = match v with
      | VObj l =>
          match heap w !! l with
          | Some (Obj _ fields) => default v (fields !! "default")
          | _ => v
          end
      | _ => v
      end ∧
  (thenable (heap w) x = false →
   promise_state (heap (run_reaction w (Unwrap src derived) (Fulfilled v))) (VObj derived) =
     Some (Fulfilled x) ∧
   ∀ (w2 : world) (j : nat) (env : nat) (resolvable : fn) (n : Z)
     (fullPathname : string) (currentResult : Resolution),
     reactions w2 !! j = Some (Changes (VObj derived) env resolvable n fullPathname) →
     promise_state (heap w2) (VObj derived) = Some (Fulfilled x) →
     lookup_result w2 env resolvable = Some currentResult →
     id currentResult = n →
     ∃ w3,
       react w2 j = set_reactions w3 (reactions w3 ++ [Notify true n]) ∧
       lookup_result w3 env resolvable =
         Some {| id := n; status := Ready; promise := VObj derived;
                 value := Some x; error := None |}) ∧
  (∀ q, x = VObj q → q ≠ derived → is_promise (heap w) x = true →
   run_reaction w (Unwrap src derived) (Fulfilled v) =
     set_reactions w (reactions w ++ [Follow q derived]) ∧
   ∀ (w2 : world) (s : settlement),
     s ≠ Pending → (derived < length (heap w2))%nat →
     promise_state (heap (run_reaction w2 (Follow q derived) s)) (VObj derived) = Some s) ∧
  (∀ q, x = VObj q → get (heap w) x "then" = VPromiseThen →
   is_promise (heap w) x = false →
   let w' := run_reaction w (Unwrap src derived) (Fulfilled v) in
   heap w' !! length (heap w) = Some (Obj ClsTypeError ∅) ∧
   promise_state (heap w') (VObj derived) = Some (Rejected (VObj (length (heap w)))) ∧
   ∀ (w2 : world) (j : nat) (env : nat) (resolvable : fn) (n : Z)
     (fullPathname : string) (currentResult : Resolution) (e : jsval),
     reactions w2 !! j = Some (Changes (VObj derived) env resolvable n fullPathname) →
     promise_state (heap w2) (VObj derived) = Some (Rejected e) →
     truthy e = true →
     lookup_result w2 env resolvable = Some currentResult →
     id currentResult = n →
     lookup_result (react w2 j) env resolvable =
       Some {| id := n; status := Error; promise := VObj derived;
               value := None; error := Some e |}) ∧
  (∀ q g, x = VObj q → q ≠ derived → get (heap w) x "then" = VFun g →
   run_reaction w (Unwrap src derived) (Fulfilled v) =
     match then_body g x [ResolveFn derived; RejectFn derived] (heap w) with
     | (Return _, h') => set_heap w h'
     | (Throw e, h') => set_heap w (settle_promise h' derived (Rejected e))
     end).
Proof.
  intros Hd x.
  assert (derived < length (heap w))%nat as Hlt by (by eapply lookup_lt_Some).
  split; [apply extractDefault_spec|]. split; [|split; [|split]].
  - intros Hx. split.
    + cbn [run_reaction]. fold x. clearbody x. unfold resolve_promise.
      destruct x as [| | | | | |l| |g]; cbn [heap set_heap set_reactions];
        try (by apply promise_state_settle).
      destruct (Nat.eqb_spec l derived) as [->|Hne].
      { unfold thenable, get in Hx. by rewrite Hd in Hx. }
      unfold thenable in Hx.
      destruct (get (heap w) (VObj l) "then"); try done;
        cbn [heap set_heap set_reactions]; by apply promise_state_settle.
    + intros w2 j env f n path cur Hj Hp Hcur Hid.
      eexists. split.
      * unfold react. rewrite Hj. cbn [awaited]. cbv zeta. rewrite Hp. cbn [run_reaction].
        erewrite onFulfilled_current; [reflexivity|exact Hcur|exact Hid].
      * rewrite lookup_result_set_result. by rewrite decide_True.
  - intros q Hq Hne Hx. split.
    + cbn [run_reaction]. fold x. rewrite Hq in *. unfold resolve_promise.
      destruct (Nat.eqb_spec q derived) as [->|_]; [done|]. rewrite Hx.
      assert (get (heap w) (VObj q) "then" = VPromiseThen) as ->.
      { unfold is_promise, get in *. by destruct (heap w !! q) as [[]|]. }
      by destruct w.
    + intros w2 s Hs Hlt2. destruct s; [done| |]; by apply promise_state_settle.
  - intros q Hq Hthen Hx w'. subst w'. cbn [run_reaction]. fold x. rewrite Hq in *.
    assert (q ≠ derived) as Hne.
    { intros ->. unfold is_promise in Hx. by rewrite Hd in Hx. }
    unfold resolve_promise. destruct (Nat.eqb_spec q derived) as [|_]; [done|].
    rewrite Hthen, Hx. cbn [TypeError alloc heap set_heap set_reactions].
    unfold settle_promise. split; [|split].
    + rewrite list_lookup_insert_ne by lia. by rewrite lookup_app_r, Nat.sub_diag.
    + simpl. rewrite list_lookup_insert_eq; [done|]. rewrite length_app. lia.
    + intros w2 j env f n path cur e Hj Hp He Hcur Hid.
      unfold react. rewrite Hj. cbn [awaited]. cbv zeta. rewrite Hp. cbn [run_reaction].
      rewrite (onRejected_current (set_reactions w2 (delete j (reactions w2)))
                 _ _ _ _ _ _ cur Hcur Hid).
      change (lookup_result (set_reactions ?w ?rs) ?e ?f) with (lookup_result w e f).
      rewrite lookup_result_set_result, decide_True by done.
      unfold error_or_new. by rewrite He.
  - intros q g Hq Hne Hthen. cbn [run_reaction]. fold x. rewrite Hq in *.
    unfold resolve_promise. destruct (Nat.eqb_spec q derived) as [|_]; [done|].
    rewrite Hthen. destruct (then_body _ _ _ _) as [[r|e] h']; by destruct w.
Qed.

(** C8. When the promise of an attempt has rejected and the record under
    its key still has the attempt's id, the rejection callback replaces the
    entry with a record of status [Error], the same id, the promise that
    rejected, and as [error] the rejection value, or a newly allocated
    [Error] object when that value is falsy; it returns [true], so the
    notification is queued.  The stored [error] is truthy;
    and in every world a resolver can reach, a record with status [Error]
    has a truthy [error]. *)
Theorem rejection_stored (w : world) (i : nat) (promise : jsval) (env : nat)
    (resolvable : fn) (n : Z) (fullPathname : string) (error : jsval)
    (currentResult : Resolution) :
  reactions w !! i = Some (Changes promise env resolvable n fullPathname) →
  promise_state (heap w) promise = Some (Rejected error) →
  lookup_result w env resolvable = Some currentResult →
  id currentResult = n →
  (∃ w' e,
     onRejected (set_reactions w (delete i (reactions w)))
       promise env resolvable n fullPathname error = (w', true) ∧
     react w i = set_reactions w' (reactions w' ++ [Notify true n]) ∧
     lookup_result w' env resolvable =
       Some {| id := n; status := Error; promise := promise; error := Some e;
               value := None |} ∧
     promise_state (heap w') promise = Some (Rejected error) ∧
     (if truthy error then e = error
      else e = VObj (length (heap w)) ∧ heap w' = heap w ++ [Obj ClsError ∅]) ∧
     truthy e = true) ∧
  (∀ h actions env' f' r,
     lookup_result (run (new_Resolver h) actions) env' f' = Some r →
     status r = Error → ∃ e, error_of r = Some e ∧ truthy e = true).
Proof.
  intros Hi Hp Hcur Hid. split.
  - set (w0 := set_reactions w (delete i (reactions w))).
    pose proof (onRejected_current w0 promise env resolvable n fullPathname error
                  currentResult Hcur Hid) as Hrej.
    eexists _, _. split; [exact Hrej|]. split; [|split; [|split; [|split]]].
    + unfold react. rewrite Hi. cbn [awaited]. cbv zeta. rewrite Hp.
      cbn [run_reaction]. fold w0. by rewrite Hrej.
    + rewrite lookup_result_set_result. by rewrite decide_True.
    + cbn [heap set_heap set_result set_results w0 set_reactions].
      unfold error_or_new. destruct (truthy error); simpl.
      * by rewrite promise_state_annotate.
      * apply promise_state_alloc. by rewrite promise_state_annotate.
    + cbn [heap set_heap set_result set_results w0 set_reactions].
      unfold error_or_new. destruct (truthy error) eqn:E; simpl; [done|].
      rewrite annotate_other; [done|]. by destruct error.
    + apply error_or_new_truthy.
  - intros h actions env' f' r Hr Hst.
    destruct (run_evolves actions (new_Resolver h)) as [_ Hfresh _].
    destruct (Hfresh _ _ _ Hr) as [Hold|Hnew]; [|by apply Hnew].
    unfold lookup_result, table in Hold. simpl in Hold.
    by rewrite lookup_empty in Hold.
Qed.

(** C9. The reaction [resolve] registers for an asynchronous attempt carries
    the full path, [joinPaths(env.pathname, env.unmatchedPathnamePart)].
    When its rejection callback receives a not-found error object, the heap
    it leaves is the old heap with that one object changed: if the [pathname]
    of the object was falsy (not set), it now holds the full path; if it was
    set, nothing has changed.  This happens before the record is stored, and
    the record stored holds that same object.  Annotating again with the
    path changes nothing, and an object whose [pathname] is set is left
    alone by any later annotation. *)
Theorem not_found_annotation (w : world) (env : Env) (resolvable : fn)
    (dataResolvable : option fn) (l : loc) (h : list cell) :
  lookup_result w (env_ref env) resolvable = None →
  resolvable_body resolvable env (data_promise w (env_ref env) dataResolvable).2
    (data_promise w (env_ref env) dataResolvable).1 = (Return (VObj l), h) →
  is_promise h (VObj l) = true →
  let fullPathname := joinPaths (pathname env) (unmatchedPathnamePart env) in
  let promise := VObj (length h) in
  reactions (resolve w env resolvable dataResolvable).1 !! S (length (reactions w)) =
    Some (Changes promise (env_ref env) resolvable (nextId w) fullPathname) ∧
  ∀ (w2 : world) (e : loc) (fields : gmap string jsval),
    heap w2 !! e = Some (Obj ClsNotFoundError fields) →
    let w3 := (onRejected w2 promise (env_ref env) resolvable (nextId w)
                 fullPathname (VObj e)).1 in
    heap w3 =
      (if truthy (get (heap w2) (VObj e) "pathname") then heap w2
       else <[e := Obj ClsNotFoundError (<["pathname" := VStr fullPathname]> fields)]>
              (heap w2)) ∧
    (∀ currentResult,
       lookup_result w2 (env_ref env) resolvable = Some currentResult →
       id currentResult = nextId w →
       lookup_result w3 (env_ref env) resolvable =
         Some {| id := nextId w; status := Error; promise := promise;
                 error := Some (VObj e); value := None |}) ∧
    annotate (heap w3) (VObj e) fullPathname = heap w3 ∧
    (truthy (get (heap w3) (VObj e) "pathname") = true →
     ∀ path, annotate (heap w3) (VObj e) path = heap w3).
Proof.
  intros Hmiss Hbody Hprom fullPathname promise. split.
  - rewrite (resolve_async _ _ _ _ _ _ Hmiss Hbody Hprom).
    cbv zeta. cbn [fst reactions set_reactions]. rewrite lookup_app_r by lia.
    by replace (S (length (reactions w)) - length (reactions w))%nat with 1%nat by lia.
  - intros w2 e fields He w3.
    assert (heap w3 = annotate (heap w2) (VObj e) fullPathname) as Hheap.
    { unfold w3, onRejected.
      destruct (lookup_result w2 (env_ref env) resolvable) as [r|]; [|done].
      by destruct (id r =? nextId w). }
    split; [|split; [|split]].
    + rewrite Hheap, (annotate_not_found _ _ _ _ He). unfold get. by rewrite He.
    + intros cur Hcur Hid. unfold w3.
      rewrite (onRejected_current _ _ _ _ _ _ _ _ Hcur Hid). simpl.
      rewrite lookup_result_set_result. by rewrite decide_True.
    + rewrite Hheap. apply annotate_idempotent.
    + intros Hset path. by apply annotate_set.
Qed.

(** C10. A rejection with a not-found error that has no path writes the
    path into the error object even when the completion is stale: the
    annotation comes before the id test, so the callback that stores nothing
    and notifies nobody still changes the object. *)
Theorem stale_rejection_annotates (w : world) (promise : jsval) (env : nat)
    (resolvable : fn) (n : Z) (fullPathname : string) (l : loc)
    (fields : gmap string jsval) :
  ¬ (∃ currentResult,
       lookup_result w env resolvable = Some currentResult ∧ id currentResult = n) →
  heap w !! l = Some (Obj ClsNotFoundError fields) →
  truthy (get (heap w) (VObj l) "pathname") = false →
  ∃ w',
    onRejected w promise env resolvable n fullPathname (VObj l) = (w', false) ∧
    run_reaction w (Changes promise env resolvable n fullPathname) (Rejected (VObj l)) =
      set_reactions w' (reactions w' ++ [Notify false n]) ∧
    notify w' false n = w' ∧
    results w' = results w ∧ listenerIds w' = listenerIds w ∧ trace w' = trace w ∧
    heap w' = <[l := Obj ClsNotFoundError (<["pathname" := VStr fullPathname]> fields)]> (heap w) ∧
    get (heap w') (VObj l) "pathname" = VStr fullPathname.
Proof.
  intros Hstale Hl Hunset.
  pose proof (onRejected_stale w promise env resolvable n fullPathname (VObj l) Hstale) as Hr.
  rewrite (annotate_not_found _ _ _ _ Hl) in Hr.
  unfold get in Hunset. rewrite Hl in Hunset. rewrite Hunset in Hr.
  eexists. split; [exact Hr|]. split; [|split; [done|]].
  { cbn [run_reaction]. by rewrite Hr. }
  repeat split. simpl.
  rewrite list_lookup_insert_eq by (by eapply lookup_lt_Some).
  by rewrite lookup_insert_eq.
Qed.

(** ** Further properties *)

(** What one [resolve] does to the table and the counter. *)
Lemma resolve_table w env f d :
  let w' := (resolve w env f d).1 in
  (∃ r, lookup_result w (env_ref env) f = Some r ∧ w' = w) ∨
  (lookup_result w (env_ref env) f = None ∧
   nextId w' = js_increment (nextId w) ∧
   ((∀ env' f', lookup_result w' env' f' = lookup_result w env' f') ∨
    ∃ r, id r = nextId w ∧
         (status r = Ready ∧ is_Some (value r) ∧ error_of r = None ∨
          status r = Busy ∧ value r = None ∧ error_of r = None) ∧
         ∀ env' f', lookup_result w' env' f' =
           if decide (env' = env_ref env ∧ f' = f) then Some r
           else lookup_result w env' f')).
Proof.
  cbv zeta. destruct (lookup_result w (env_ref env) f) as [r|] eqn:H.
  { left. exists r. by rewrite (resolve_hit _ _ _ _ _ H). }
  right. split; [done|].
  destruct (resolve_miss_fields w env f d H)
    as (w' & c & -> & Hn & _ & _ & _ & Hres). cbn [fst].
  destruct (at_call_fields w (env_ref env) f d) as (Hn1 & _). cbv zeta in Hn1.
  split; [by rewrite Hn|].
  destruct Hres as [[Hr _]|(r & Hr & Hid & He & Hst)].
  - left. intros env' f'. rewrite (lookup_result_results _ _ _ _ Hr).
    apply lookup_result_at_call.
  - right. exists r. split; [done|]. split.
    + destruct Hst as [(? & ? & _)|(? & ? & _)]; [by left|by right].
    + intros env' f'. rewrite (lookup_result_results _ _ _ _ Hr), lookup_result_set_result.
      case_decide; [done|]. apply lookup_result_at_call.
Qed.

(** What a completion callback does to the table and the counter. *)
Lemma onFulfilled_table w p env f n v :
  let w' := (onFulfilled w p env f n v).1 in
  nextId w' = nextId w ∧
  ((∀ env' f', lookup_result w' env' f' = lookup_result w env' f') ∨
   ∃ r0, lookup_result w env f = Some r0 ∧ id r0 = n ∧
     ∀ env' f', lookup_result w' env' f' =
       if decide (env' = env ∧ f' = f)
       then Some {| id := n; status := Ready; promise := p; error := None; value := Some v |}
       else lookup_result w env' f').
Proof.
  cbv zeta. unfold onFulfilled.
  destruct (lookup_result w env f) as [r0|] eqn:H; [|by split; [|left]].
  destruct (Z.eqb_spec (id r0) n) as [E|]; [|by split; [|left]].
  split; [done|]. right. exists r0. split; [done|]. split; [done|].
  intros env' f'. cbn [fst]. rewrite lookup_result_set_result. by rewrite E.
Qed.

Lemma onRejected_table w p env f n path e :
  let w' := (onRejected w p env f n path e).1 in
  nextId w' = nextId w ∧
  ((∀ env' f', lookup_result w' env' f' = lookup_result w env' f') ∨
   ∃ r0 e', lookup_result w env f = Some r0 ∧ id r0 = n ∧ truthy e' = true ∧
     ∀ env' f', lookup_result w' env' f' =
       if decide (env' = env ∧ f' = f)
       then Some {| id := n; status := Error; promise := p; error := Some e'; value := None |}
       else lookup_result w env' f').
Proof.
  cbv zeta. unfold onRejected.
  destruct (lookup_result w env f) as [r0|] eqn:H; [|by split; [|left]].
  destruct (Z.eqb_spec (id r0) n) as [E|]; [|by split; [|left]].
  pose proof (error_or_new_truthy (heap (set_heap w (annotate (heap w) e path))) e) as Ht.
  destruct (error_or_new _ e) as [h e']. cbn [fst snd] in *.
  split; [done|]. right. exists r0, e'. split; [done|]. split; [done|]. split; [done|].
  intros env' f'. rewrite lookup_result_set_result. rewrite E.
  case_decide; [done|]. done.
Qed.

(** X1. Every Resolution in the table of a resolver, after any run from a
    new resolver, has the fields of its status: a [Ready] one has a [value]
    and no [error], a [Busy] one has neither, an [Error] one has no [value]
    and a truthy [error]. *)
Theorem records_well_formed (h : list cell) (actions : list action) (env : nat)
    (f : fn) (r : Resolution) :
  lookup_result (run (new_Resolver h) actions) env f = Some r → record_shape r.
Proof.
  revert env f r.
  apply (run_invariant (λ w, ∀ env f r, lookup_result w env f = Some r → record_shape r));
    try done.
  - intros w env f d IH env' f' r.
    destruct (resolve_table w env f d) as [(r0 & _ & ->)|(_ & _ & [Hl|(r1 & _ & Hr1 & Hl)])];
      [apply IH|rewrite Hl; apply IH|].
    rewrite Hl. case_decide; [|apply IH]. intros [= <-]. unfold record_shape.
    by destruct Hr1 as [(-> & ? & ?)|(-> & ? & ?)].
  - intros w p env f n v IH env' f' r.
    destruct (onFulfilled_table w p env f n v) as [_ [Hl|(r0 & _ & _ & Hl)]];
      rewrite Hl; [apply IH|].
    case_decide; [|apply IH]. intros [= <-]. unfold record_shape. simpl. eauto.
  - intros w p env f n path e IH env' f' r.
    destruct (onRejected_table w p env f n path e) as [_ [Hl|(r0 & e' & _ & _ & He' & Hl)]];
      rewrite Hl; [apply IH|].
    case_decide; [|apply IH]. intros [= <-]. unfold record_shape. simpl. eauto.
Qed.

Lemma js_increment_bounds n :
  1 ≤ n ≤ 2 ^ 53 → n ≤ js_increment n ≤ 2 ^ 53 ∧ (n < 2 ^ 53 → js_increment n = n + 1).
Proof. unfold js_increment. intros H. destruct (Z.ltb_spec n (2 ^ 53)); lia. Qed.

Lemma ids_in_order_run (h : list cell) (actions : list action) :
  ids_in_order (run (new_Resolver h) actions).
Proof.
  apply (run_invariant ids_in_order); try done.
  - intros w env f d (Hn & Hid & Huniq).
    destruct (resolve_table w env f d)
      as [(r0 & _ & ->)|(Hmiss & Hn' & [Hl|(r1 & Hr1 & _ & Hl)])]; [done| |].
    + destruct (js_increment_bounds _ Hn) as [Hb _].
      split; [rewrite Hn'; lia|]. split.
      * intros env' f' r. rewrite Hl, Hn'. intros Hr.
        destruct (Hid _ _ _ Hr) as [? [?|?]]; split; lia.
      * intros e1 f1 r e2 f2 r'. rewrite !Hl. apply Huniq.
    + destruct (js_increment_bounds _ Hn) as [Hb Hs].
      assert (∀ env' f' r, lookup_result w env' f' = Some r → id r ≠ id r1 ∨ id r = 2 ^ 53)
        as Hold.
      { intros env' f' r Hr. destruct (Hid _ _ _ Hr) as [? [?|?]]; [left|right]; lia. }
      split; [rewrite Hn'; lia|]. split.
      * intros env' f' r. rewrite Hl, Hn'. case_decide.
        -- intros [= <-]. rewrite Hr1. split; [lia|].
           destruct (Z.ltb_spec (nextId w) (2 ^ 53)); [left; rewrite Hs; lia|right; lia].
        -- intros Hr. destruct (Hid _ _ _ Hr) as [? [?|?]]; split; lia.
      * intros e1 f1 r e2 f2 r'. rewrite !Hl.
        case_decide as H1; case_decide as H2.
        -- intros _ _ _ _. destruct H1 as [-> ->], H2 as [-> ->]. done.
        -- intros [= <-] Hr' E Hlt. destruct (Hold _ _ _ Hr'); lia.
        -- intros Hr [= <-] E Hlt. destruct (Hold _ _ _ Hr); lia.
        -- apply Huniq.
  - intros w p env f n v (Hn & Hid & Huniq).
    destruct (onFulfilled_table w p env f n v) as [Hn' [Hl|(r0 & Hr0 & Hid0 & Hl)]].
    + split; [by rewrite Hn'|]. split.
      * intros env' f' r. rewrite Hl, Hn'. apply Hid.
      * intros e1 f1 r e2 f2 r'. rewrite !Hl. apply Huniq.
    + split; [by rewrite Hn'|]. split.
      * intros env' f' r. rewrite Hl, Hn'. case_decide; [|apply Hid].
        intros [= <-]. simpl. rewrite <- Hid0. by apply (Hid _ _ _ Hr0).
      * intros e1 f1 r e2 f2 r'. rewrite !Hl.
        case_decide as H1; case_decide as H2.
        -- intros _ _ _ _. destruct H1 as [-> ->], H2 as [-> ->]. done.
        -- intros [= <-] Hr' E Hlt. simpl in *.
           destruct (Huniq _ _ _ _ _ _ Hr0 Hr'); [lia|lia|]. subst. by destruct H2.
        -- intros Hr [= <-] E Hlt. simpl in *.
           destruct (Huniq _ _ _ _ _ _ Hr Hr0); [lia|lia|]. subst. by destruct H1.
        -- apply Huniq.
  - intros w p env f n path e (Hn & Hid & Huniq).
    destruct (onRejected_table w p env f n path e)
      as [Hn' [Hl|(r0 & e' & Hr0 & Hid0 & _ & Hl)]].
    + split; [by rewrite Hn'|]. split.
      * intros env' f' r. rewrite Hl, Hn'. apply Hid.
      * intros e1 f1 r e2 f2 r'. rewrite !Hl. apply Huniq.
    + split; [by rewrite Hn'|]. split.
      * intros env' f' r. rewrite Hl, Hn'. case_decide; [|apply Hid].
        intros [= <-]. simpl. rewrite <- Hid0. by apply (Hid _ _ _ Hr0).
      * intros e1 f1 r e2 f2 r'. rewrite !Hl.
        case_decide as H1; case_decide as H2.
        -- intros _ _ _ _. destruct H1 as [-> ->], H2 as [-> ->]. done.
        -- intros [= <-] Hr' E Hlt. simpl in *.
           destruct (Huniq _ _ _ _ _ _ Hr0 Hr'); [lia|lia|]. subst. by destruct H2.
        -- intros Hr [= <-] E Hlt. simpl in *.
           destruct (Huniq _ _ _ _ _ _ Hr Hr0); [lia|lia|]. subst. by destruct H1.
        -- apply Huniq.
Qed.

(** X2. After any run from a new resolver the counter [nextId] is at least 1
    and at most 2^53, every id in the table is at least 1 and below the
    counter (or is 2^53, where [nextId++] stops counting), and below 2^53 no
    two entries of the tables share an id: an id names one attempt. *)
Theorem ids_fresh (h : list cell) (actions : list action) :
  let w := run (new_Resolver h) actions in
  1 ≤ nextId w ≤ 2 ^ 53 ∧
  (∀ env f r, lookup_result w env f = Some r →
     1 ≤ id r ∧ (id r < nextId w ∨ id r = 2 ^ 53)) ∧
  (∀ env f r env' f' r',
     lookup_result w env f = Some r → lookup_result w env' f' = Some r' →
     id r = id r' → id r < 2 ^ 53 → env = env' ∧ f = f').
Proof. apply ids_in_order_run. Qed.

(** The Resolution [resolve] returns is the one the table holds afterwards;
    if it is new, its id is the value of the counter before the call. *)
Lemma resolve_Return w env f d w' r :
  resolve w env f d = (w', Return r) →
  lookup_result w' (env_ref env) f = Some r ∧
  (lookup_result w (env_ref env) f = None → id r = nextId w ∧ status r ≠ Error).
Proof.
  destruct (lookup_result w (env_ref env) f) as [r0|] eqn:H.
  { rewrite (resolve_hit _ _ _ _ _ H). by intros [= <- <-]. }
  intros Hres. pose proof (resolve_lookup_key w env f d H) as Hkey.
  destruct (resolve_miss_fields w env f d H)
    as (w2 & c & Hres2 & _ & _ & _ & _ & Hcases).
  rewrite Hres in Hkey, Hres2. injection Hres2 as <- <-. cbn [fst snd] in Hkey.
  split; [done|]. intros _.
  destruct Hcases as [[_ [e [=]]]|(r1 & _ & Hid & _ & Hst)].
  destruct Hst as [(Hs & _ & [= ->])|(Hs & _ & [[= ->]|[e [=]]])]; split; congruence.
Qed.

Lemma resolve_reactions w env f d :
  reactions w `prefix_of` reactions (resolve w env f d).1.
Proof.
  destruct (lookup_result w (env_ref env) f) as [r0|] eqn:H.
  { by rewrite (resolve_hit _ _ _ _ _ H). }
  destruct (resolve_miss_fields w env f d H) as (w' & c & -> & _ & _ & _ & Hrs & _).
  by destruct (at_call_fields w (env_ref env) f d) as (_ & _ & _ & <- & _).
Qed.

(** X3. The counter.  A [resolve] that finds no entry takes the id [nextId]
    and increments the counter, also when the resolvable throws; a [resolve]
    that finds an entry leaves the counter alone; a new Resolution carries the
    id the counter had before the call; and no run makes the counter go
    back. *)
Theorem resolve_takes_id (w : world) (env : Env) (resolvable : fn)
    (dataResolvable : option fn) :
  nextId (resolve w env resolvable dataResolvable).1 =
    match lookup_result w (env_ref env) resolvable with
    | Some _ => nextId w
    | None => js_increment (nextId w)
    end ∧
  (∀ w' r, resolve w env resolvable dataResolvable = (w', Return r) →
           lookup_result w (env_ref env) resolvable = None → id r = nextId w) ∧
  (∀ actions, nextId w ≤ nextId (run w actions)).
Proof.
  split; [|split].
  - destruct (resolve_table w env resolvable dataResolvable)
      as [(r0 & H & ->)|(H & Hn & _)]; by rewrite H.
  - intros w' r Hres Hmiss. by apply (resolve_Return _ _ _ _ _ _ Hres).
  - assert (∀ n, n ≤ js_increment n) as Hinc.
    { intros n. unfold js_increment. destruct (n <? 2 ^ 53); lia. }
    intros actions. apply (run_invariant (λ w', nextId w ≤ nextId w')); try done.
    + intros w0 env0 f0 d0 H.
      destruct (resolve_table w0 env0 f0 d0) as [(r0 & _ & ->)|(_ & -> & _)]; [done|].
      specialize (Hinc (nextId w0)). lia.
    + intros w0 p env0 f0 n v H. by destruct (onFulfilled_table w0 p env0 f0 n v) as [-> _].
    + intros w0 p env0 f0 n path e H.
      by destruct (onRejected_table w0 p env0 f0 n path e) as [-> _].
Qed.

(** X4. A [resolve] that returns is idempotent.  Once a call has returned
    a Resolution, the Resolution is in the table, and a [resolve] of the same
    resolvable for the same environment made right after it, with any
    [dataResolvable], returns that same Resolution and changes nothing in the
    resolver, the heap, the registered reactions or the log.  After any run,
    a completion may have replaced the Resolution, and [resolve] returns the
    one the table then holds, which has the same id, still without calling
    the resolvable. *)
Theorem resolve_idempotent (w w1 : world) (env : Env) (resolvable : fn)
    (dataResolvable : option fn) (r : Resolution) :
  resolve w env resolvable dataResolvable = (w1, Return r) →
  lookup_result w1 (env_ref env) resolvable = Some r ∧
  (∀ dataResolvable', resolve w1 env resolvable dataResolvable' = (w1, Return r)) ∧
  (∀ actions dataResolvable',
     ∃ r', resolve (run w1 actions) env resolvable dataResolvable' =
             (run w1 actions, Return r') ∧
           id r' = id r ∧
           invocations (env_ref env) resolvable (trace (run w1 actions)) =
             invocations (env_ref env) resolvable (trace w1)).
Proof.
  intros H. destruct (resolve_Return _ _ _ _ _ _ H) as [Hl _]. split; [done|].
  split; [intros d'; by apply resolve_hit|].
  intros actions d'. destruct (run_evolves actions w1) as [Hstay _ Hquiet].
  destruct (Hstay _ _ _ Hl) as (r' & Hr' & Hid). exists r'.
  split; [by apply resolve_hit|]. split; [done|]. apply Hquiet. by exists r.
Qed.

(** X5. What [resolve] leaves alone: an entry of the table is never
    overwritten, the entries of other resolvables and environments are the
    same after the call, the listener registry is untouched, the registered
    reactions are only added to, and the log grows by the one call of the
    resolvable on a miss and by nothing on a hit. *)
Theorem resolve_frame (w : world) (env : Env) (resolvable : fn)
    (dataResolvable : option fn) :
  let w' := (resolve w env resolvable dataResolvable).1 in
  (∀ env' f' r, lookup_result w env' f' = Some r → lookup_result w' env' f' = Some r) ∧
  (∀ env' f', ¬ (env' = env_ref env ∧ f' = resolvable) →
     lookup_result w' env' f' = lookup_result w env' f') ∧
  listenerIds w' = listenerIds w ∧
  reactions w `prefix_of` reactions w' ∧
  trace w' = trace w ++
    match lookup_result w (env_ref env) resolvable with
    | Some _ => []
    | None => [EvResolvable (env_ref env) resolvable]
    end.
Proof.
  cbv zeta. split; [|split; [|split; [|split]]].
  - intros env' f' r Hr.
    destruct (decide (env' = env_ref env ∧ f' = resolvable)) as [[-> ->]|Hne].
    + by rewrite (resolve_hit _ _ _ _ _ Hr).
    + by rewrite resolve_lookup_other.
  - intros env' f' Hne. by apply resolve_lookup_other.
  - apply resolve_listenerIds.
  - apply resolve_reactions.
  - apply resolve_trace.
Qed.


(** ** An asynchronous attempt, from [resolve] to the notification *)


(** A value without a [then] that can be called fulfils. *)
Lemma resolve_promise_plain h rs derived x s :
  h !! derived = Some (Promise s) → thenable h x = false →
  resolve_promise h rs derived x = (settle_promise h derived (Fulfilled x), rs).
Proof.
  intros Hd Hx. unfold resolve_promise. destruct x as [| | | | | |l| |g]; try done.
  destruct (Nat.eqb_spec l derived) as [->|_].
  { unfold thenable, get in Hx. by rewrite Hd in Hx. }
  unfold thenable in Hx. by destruct (get h (VObj l) "then").
Qed.

Lemma settle_pending w l s :
  heap w !! l = Some (Promise Pending) →
  existsb (derived_by l) (reactions w) = false →
  match s with
  | Pending => False
  | Fulfilled v => thenable (heap w) v = false
  | Rejected _ => True
  end →
  settle w l s = set_heap w (settle_promise (heap w) l s).
Proof.
  intros Hl Hfree Hs. unfold settle. rewrite Hl, Hfree.
  destruct s as [|v|e]; [done| |done]. by rewrite (resolve_promise_plain _ _ _ _ _ Hl Hs).
Qed.

Lemma react_Unwrap w i src derived s :
  reactions w !! i = Some (Unwrap src derived) →
  promise_state (heap w) (VObj src) = Some s →
  heap w !! derived = Some (Promise Pending) →
  match s with
  | Pending => False
  | Fulfilled v => thenable (heap w) (extractDefault (heap w) v) = false
  | Rejected _ => True
  end →
  react w i =
  set_reactions
    (set_heap w
       (settle_promise (heap w) derived
          match s with
          | Fulfilled v => Fulfilled (extractDefault (heap w) v)
          | _ => s
          end))
    (delete i (reactions w)).
Proof.
  intros Hi Hs Hd Hx. unfold react. rewrite Hi. cbn [awaited]. cbv zeta. rewrite Hs.
  destruct s as [|v|e]; [done| |done].
  cbn [run_reaction heap set_reactions reactions].
  by rewrite (resolve_promise_plain _ _ _ _ _ Hd Hx).
Qed.

Lemma react_Changes w i promise env f n path s currentResult :
  reactions w !! i = Some (Changes promise env f n path) →
  promise_state (heap w) promise = Some s → s ≠ Pending →
  lookup_result w env f = Some currentResult → id currentResult = n →
  let w0 := set_reactions w (delete i (reactions w)) in
  react w i =
  match s with
  | Rejected e =>
      set_reactions
        (set_result
           (set_heap w0 (error_or_new (annotate (heap w) e path) e).1) env f
           {| id := n; status := Error; promise := promise;
              error := Some (error_or_new (annotate (heap w) e path) e).2;
              value := None |})
        (delete i (reactions w) ++ [Notify true n])
  | _ =>
      set_reactions
        (set_result w0 env f
           {| id := n; status := Ready; promise := promise; error := None;
              value := match s with Fulfilled v => Some v | _ => None end |})
        (delete i (reactions w) ++ [Notify true n])
  end.
Proof.
  intros Hi Hs Hne Hcur Hid w0. unfold react. rewrite Hi. cbn [awaited]. cbv zeta. rewrite Hs.
  destruct s as [|v|e]; [done| |]; cbn [run_reaction]; fold w0.
  - by rewrite (onFulfilled_current w0 _ _ _ _ _ currentResult Hcur Hid).
  - by rewrite (onRejected_current w0 _ _ _ _ _ _ currentResult Hcur Hid).
Qed.

Lemma react_Notify w i didUpdate n :
  reactions w !! i = Some (Notify didUpdate n) →
  react w i = notify (set_reactions w (delete i (reactions w))) didUpdate n.
Proof. intros Hi. unfold react. by rewrite Hi. Qed.

Lemma thenable_settle h l s0 s x :
  h !! l = Some (Promise s0) → thenable (settle_promise h l s) x = thenable h x.
Proof.
  intros Hl. destruct x as [| | | | | |q| |g]; try done.
  unfold settle_promise, thenable, get.
  destruct (decide (q = l)) as [->|Hne].
  - rewrite list_lookup_insert_eq by (by eapply lookup_lt_Some). by rewrite Hl.
  - by rewrite list_lookup_insert_ne.
Qed.

Lemma extractDefault_settle h l s0 s v :
  h !! l = Some (Promise s0) → extractDefault (settle_promise h l s) v = extractDefault h v.
Proof.
  intros Hl. rewrite !extractDefault_spec. destruct v as [| | | | | |q| |g]; try done.
  unfold settle_promise. destruct (decide (q = l)) as [->|Hne].
  - rewrite list_lookup_insert_eq by (by eapply lookup_lt_Some). by rewrite Hl.
  - by rewrite list_lookup_insert_ne.
Qed.

(** The world an asynchronous attempt leaves, and the two steps that bring
    its promise to the callbacks of [listenForChanges]. *)
Lemma resolve_async_world w env f d l h :
  lookup_result w (env_ref env) f = None →
  resolvable_body f env (data_promise w (env_ref env) d).2
    (data_promise w (env_ref env) d).1 = (Return (VObj l), h) →
  is_promise h (VObj l) = true →
  let result := {| id := nextId w; status := Busy; promise := VObj (length h);
                   value := None; error := None |} in
  ∃ w1,
    resolve w env f d = (w1, Return result) ∧
    lookup_result w1 (env_ref env) f = Some result ∧
    heap w1 = h ++ [Promise Pending] ∧
    reactions w1 = reactions w ++
      [Unwrap l (length h);
       Changes (VObj (length h)) (env_ref env) f (nextId w)
         (joinPaths (pathname env) (unmatchedPathnamePart env))] ∧
    listenerIds w1 = listenerIds w ∧
    nextId w1 = js_increment (nextId w) ∧
    trace w1 = trace w ++ [EvResolvable (env_ref env) f].
Proof.
  intros Hmiss Hbody Hprom. eexists. cbv zeta.
  split; [by apply resolve_async|]. split; [|split; [|split; [|split; [|split]]]].
  - change (lookup_result (set_reactions ?w ?rs) ?e ?f) with (lookup_result w e f).
    rewrite lookup_result_set_result. by rewrite decide_True.
  - done.
  - done.
  - simpl. unfold with_table. by destruct (results w !! env_ref env).
  - simpl. unfold with_table. by destruct (results w !! env_ref env).
  - simpl. unfold with_table. by destruct (results w !! env_ref env).
Qed.

Lemma settled_attempt w1 (k : nat) rs l p c s :
  heap w1 !! l = Some (Promise Pending) →
  heap w1 !! p = Some (Promise Pending) →
  l ≠ p →
  reactions w1 = rs ++ [Unwrap l p; c] →
  existsb (derived_by l) rs = false →
  derived_by l c = false →
  match s with
  | Pending => False
  | Fulfilled v =>
      thenable (heap w1) v = false ∧
      thenable (heap w1) (extractDefault (heap w1) v) = false
  | Rejected _ => True
  end →
  let s' := match s with
            | Fulfilled v => Fulfilled (extractDefault (heap w1) v)
            | _ => s
            end in
  run w1 [Settle l s; React (length rs)] =
  set_reactions
    (set_heap w1 (settle_promise (settle_promise (heap w1) l s) p s'))
    (rs ++ [c]).
Proof.
  intros Hl Hp Hne Hrs Hfree Hc Hs s'. unfold run. cbn [fold_left step].
  rewrite (settle_pending w1 l s Hl).
  2: { rewrite Hrs, existsb_app, Hfree. simpl. rewrite Hc.
       by destruct (Nat.eqb_spec p l) as [->|]. }
  2: { destruct s; [done| |done]. by destruct Hs. }
  assert (l < length (heap w1))%nat as Hlt by (by eapply lookup_lt_Some).
  erewrite (react_Unwrap _ (length rs) l p s).
  - cbn [heap set_heap reactions set_reactions]. rewrite Hrs.
    rewrite (delete_middle rs [c]). subst s'.
    destruct s as [|v|e]; [done| |done].
    by rewrite (extractDefault_settle _ _ _ _ _ Hl).
  - cbn [reactions set_heap]. rewrite Hrs. by rewrite lookup_app_r, Nat.sub_diag.
  - cbn [heap set_heap]. by apply promise_state_settle.
  - cbn [heap set_heap]. unfold settle_promise. by rewrite list_lookup_insert_ne.
  - cbn [heap set_heap]. destruct s as [|v|e]; [done| |done].
    rewrite (extractDefault_settle _ _ _ _ _ Hl), (thenable_settle _ _ _ _ _ Hl).
    by destruct Hs.
Qed.

(** X7. The asynchronous case of [resolve]: when the resolvable, called for
    the first time, returns a promise, [resolve] returns and memoises a [Busy]
    Resolution with the id the counter had, no [value] and no [error], whose
    [promise] is a new pending promise derived from the returned one; the
    returned promise keeps its state; the unwrapping of [default] and the
    callbacks of [listenForChanges], with the id and the joined path, are
    registered after the reactions there were; the listener registry is
    untouched. *)
Theorem resolve_asynchronous (w : world) (env : Env) (resolvable : fn)
    (dataResolvable : option fn) (l : loc) (h : list cell) :
  lookup_result w (env_ref env) resolvable = None →
  resolvable_body resolvable env (data_promise w (env_ref env) dataResolvable).2
    (data_promise w (env_ref env) dataResolvable).1 = (Return (VObj l), h) →
  is_promise h (VObj l) = true →
  ∃ w',
    let result := {| id := nextId w; status := Busy; promise := VObj (length h);
                     value := None; error := None |} in
    resolve w env resolvable dataResolvable = (w', Return result) ∧
    lookup_result w' (env_ref env) resolvable = Some result ∧
    heap w' = h ++ [Promise Pending] ∧
    promise_state (heap w') (VObj (length h)) = Some Pending ∧
    promise_state (heap w') (VObj l) = promise_state h (VObj l) ∧
    reactions w' = reactions w ++
      [Unwrap l (length h);
       Changes (VObj (length h)) (env_ref env) resolvable (nextId w)
         (joinPaths (pathname env) (unmatchedPathnamePart env))] ∧
    listenerIds w' = listenerIds w.
Proof.
  intros Hmiss Hbody Hprom.
  destruct (resolve_async_world w env resolvable dataResolvable l h Hmiss Hbody Hprom)
    as (w1 & Hres & Hlook & Hheap & Hrs & Hls & _ & _).
  exists w1. cbv zeta. rewrite Hheap. repeat split; try done.
  - simpl. by rewrite lookup_app_r, Nat.sub_diag.
  - simpl. unfold is_promise in Hprom.
    destruct (h !! l) as [c|] eqn:Hl; [|done]. by rewrite (lookup_app_l_Some _ _ _ _ Hl).
Qed.

(** X8. An asynchronous attempt that succeeds, from end to end.  The
    resolvable, called for the first time, returns a pending promise of its
    own that no reaction is to settle; the promise is then fulfilled with a
    value [v] that has no [then] that can be called, and neither has [v] with
    its [default] unwrapped; and the two reactions [resolve] registered run.
    Then the table holds, under the id of the attempt and with the same
    derived promise, a [Ready] Resolution whose value is [v] with its
    [default] unwrapped; no listener has been called yet; the one job left is
    the notification for the id; and [resolve] returns the [Ready] Resolution
    without calling the resolvable. *)
Theorem attempt_fulfils (w : world) (env : Env) (resolvable : fn)
    (dataResolvable : option fn) (l : loc) (h : list cell) (v : jsval) :
  lookup_result w (env_ref env) resolvable = None →
  resolvable_body resolvable env (data_promise w (env_ref env) dataResolvable).2
    (data_promise w (env_ref env) dataResolvable).1 = (Return (VObj l), h) →
  h !! l = Some (Promise Pending) →
  existsb (derived_by l) (reactions w) = false →
  let w1 := (resolve w env resolvable dataResolvable).1 in
  thenable (heap w1) v = false →
  thenable (heap w1) (extractDefault (heap w1) v) = false →
  let k := length (reactions w) in
  let w' := run w1 [Settle l (Fulfilled v); React k; React k] in
  let result := {| id := nextId w; status := Ready; promise := VObj (length h);
                   value := Some (extractDefault (heap w1) v); error := None |} in
  lookup_result w' (env_ref env) resolvable = Some result ∧
  reactions w' = reactions w ++ [Notify true (nextId w)] ∧
  trace w' = trace w1 ∧
  (∀ dataResolvable', resolve w' env resolvable dataResolvable' = (w', Return result)) ∧
  react w' k =
    notify (set_reactions w' (reactions w)) true (nextId w).
Proof.
  intros Hmiss Hbody Hl Hfree w1.
  assert (is_promise h (VObj l) = true) as Hprom by (simpl; by rewrite Hl).
  destruct (resolve_async_world w env resolvable dataResolvable l h Hmiss Hbody Hprom)
    as (w1' & Hres & Hlook & Hheap & Hrs & _ & _ & _).
  assert (w1 = w1') as -> by (subst w1; by rewrite Hres). clear Hres.
  intros Hv Hx k w' result.
  assert (l < length h)%nat as Hlt by (by eapply lookup_lt_Some).
  assert (heap w1' !! l = Some (Promise Pending)) as Hl1
    by (rewrite Hheap; by apply lookup_app_l_Some).
  assert (heap w1' !! length h = Some (Promise Pending)) as Hp1
    by (rewrite Hheap; by rewrite lookup_app_r, Nat.sub_diag).
  assert (l ≠ length h) as Hne by lia.
  pose proof (settled_attempt w1' k (reactions w) l (length h) _ (Fulfilled v)
                Hl1 Hp1 Hne Hrs Hfree eq_refl (conj Hv Hx)) as Hrun.
  cbv zeta in Hrun.
  set (w2 := set_reactions _ _) in Hrun.
  assert (w' = react w2 k) as Hw'.
  { subst w' k. change [Settle l (Fulfilled v); React (length (reactions w)); React (length (reactions w))]
      with ([Settle l (Fulfilled v); React (length (reactions w))] ++ [React (length (reactions w))]).
    unfold run in *. by rewrite fold_left_app, Hrun. }
  assert (length (heap w1') = S (length h)) as Hlen
    by (rewrite Hheap, length_app; simpl; lia).
  rewrite (react_Changes w2 k (VObj (length h)) (env_ref env) resolvable (nextId w)
             (joinPaths (pathname env) (unmatchedPathnamePart env))
             (Fulfilled (extractDefault (heap w1') v))
             {| id := nextId w; status := Busy; promise := VObj (length h);
                value := None; error := None |}) in Hw'.
  - subst w2. cbn [reactions set_reactions] in Hw'.
    rewrite (delete_middle (reactions w) []), app_nil_r in Hw'.
    assert (lookup_result w' (env_ref env) resolvable = Some result) as Hfinal.
    { rewrite Hw'.
      change (lookup_result (set_reactions ?w ?rs) ?e ?f) with (lookup_result w e f).
      rewrite lookup_result_set_result. by rewrite decide_True. }
    assert (reactions w' = reactions w ++ [Notify true (nextId w)]) as Hrs'
      by (by rewrite Hw').
    split; [done|]. split; [done|]. split; [by rewrite Hw'|].
    split; [intros d'; by apply resolve_hit|].
    rewrite (react_Notify w' k true (nextId w)).
    + by rewrite Hrs', (delete_middle (reactions w) []), app_nil_r.
    + rewrite Hrs'. by rewrite lookup_app_r, Nat.sub_diag.
  - subst w2. cbn [reactions set_reactions]. by rewrite lookup_app_r, Nat.sub_diag.
  - subst w2. cbn [heap set_heap set_reactions]. apply promise_state_settle.
    unfold settle_promise. rewrite length_insert. lia.
  - done.
  - subst w2. by change (lookup_result w1' (env_ref env) resolvable = Some
      {| id := nextId w; status := Busy; promise := VObj (length h);
         value := None; error := None |}).
  - done.
Qed.

(** X9. An asynchronous attempt that fails, from end to end.  The
    resolvable, called for the first time, returns a pending promise of its
    own; the promise is then rejected with [e], and the two reactions
    [resolve] registered run.  Then the table holds, under the id of the
    attempt and with the same derived promise, an [Error] Resolution without
    a value whose error is truthy, and is [e] if [e] is truthy; both promises
    are rejected with [e]; the one job left is the notification for the id;
    and [resolve] returns the [Error] Resolution without calling the
    resolvable again: a failed attempt is not retried. *)
Theorem attempt_rejects (w : world) (env : Env) (resolvable : fn)
    (dataResolvable : option fn) (l : loc) (h : list cell) (e : jsval) :
  lookup_result w (env_ref env) resolvable = None →
  resolvable_body resolvable env (data_promise w (env_ref env) dataResolvable).2
    (data_promise w (env_ref env) dataResolvable).1 = (Return (VObj l), h) →
  h !! l = Some (Promise Pending) →
  existsb (derived_by l) (reactions w) = false →
  let w1 := (resolve w env resolvable dataResolvable).1 in
  let k := length (reactions w) in
  let w' := run w1 [Settle l (Rejected e); React k; React k] in
  ∃ e',
    let result := {| id := nextId w; status := Error; promise := VObj (length h);
                     value := None; error := Some e' |} in
    lookup_result w' (env_ref env) resolvable = Some result ∧
    truthy e' = true ∧
    (truthy e = true → e' = e) ∧
    promise_state (heap w') (VObj l) = Some (Rejected e) ∧
    promise_state (heap w') (VObj (length h)) = Some (Rejected e) ∧
    reactions w' = reactions w ++ [Notify true (nextId w)] ∧
    trace w' = trace w1 ∧
    (∀ dataResolvable', resolve w' env resolvable dataResolvable' = (w', Return result)).
Proof.
  intros Hmiss Hbody Hl Hfree w1.
  assert (is_promise h (VObj l) = true) as Hprom by (simpl; by rewrite Hl).
  destruct (resolve_async_world w env resolvable dataResolvable l h Hmiss Hbody Hprom)
    as (w1' & Hres & Hlook & Hheap & Hrs & _ & _ & _).
  assert (w1 = w1') as -> by (subst w1; by rewrite Hres). clear Hres.
  intros k w'.
  assert (l < length h)%nat as Hlt by (by eapply lookup_lt_Some).
  assert (heap w1' !! l = Some (Promise Pending)) as Hl1
    by (rewrite Hheap; by apply lookup_app_l_Some).
  assert (heap w1' !! length h = Some (Promise Pending)) as Hp1
    by (rewrite Hheap; by rewrite lookup_app_r, Nat.sub_diag).
  assert (l ≠ length h) as Hne by lia.
  pose proof (settled_attempt w1' k (reactions w) l (length h) _ (Rejected e)
                Hl1 Hp1 Hne Hrs Hfree eq_refl I) as Hrun.
  cbv zeta in Hrun.
  set (w2 := set_reactions _ _) in Hrun.
  assert (w' = react w2 k) as Hw'.
  { subst w' k. change [Settle l (Rejected e); React (length (reactions w)); React (length (reactions w))]
      with ([Settle l (Rejected e); React (length (reactions w))] ++ [React (length (reactions w))]).
    unfold run in *. by rewrite fold_left_app, Hrun. }
  assert (length (heap w1') = S (length h)) as Hlen
    by (rewrite Hheap, length_app; simpl; lia).
  set (path := joinPaths (pathname env) (unmatchedPathnamePart env)) in *.
  rewrite (react_Changes w2 k (VObj (length h)) (env_ref env) resolvable (nextId w)
             path (Rejected e)
             {| id := nextId w; status := Busy; promise := VObj (length h);
                value := None; error := None |}) in Hw'.
  - subst w2. cbn [reactions set_reactions heap set_heap] in Hw'.
    rewrite (delete_middle (reactions w) []), app_nil_r in Hw'.
    set (h2 := settle_promise (settle_promise (heap w1') l (Rejected e)) (length h)
                 (Rejected e)) in *.
    exists (error_or_new (annotate h2 e path) e).2. cbv zeta.
    assert (lookup_result w' (env_ref env) resolvable =
            Some {| id := nextId w; status := Error; promise := VObj (length h);
                    value := None; error := Some (error_or_new (annotate h2 e path) e).2 |})
      as Hfinal.
    { rewrite Hw'.
      change (lookup_result (set_reactions ?w ?rs) ?e ?f) with (lookup_result w e f).
      rewrite lookup_result_set_result. by rewrite decide_True. }
    assert (∀ q s, promise_state h2 q = Some s → promise_state (heap w') q = Some s) as Hkeep.
    { intros q s Hq. rewrite Hw'. unfold set_result. cbn [heap set_results set_heap set_reactions].
      unfold error_or_new. destruct (truthy e).
      - cbn [fst]. by rewrite promise_state_annotate.
      - cbn [fst alloc]. apply promise_state_alloc. by rewrite promise_state_annotate. }
    split; [done|]. split; [apply error_or_new_truthy|].
    split; [intros Ht; unfold error_or_new; by rewrite Ht|].
    split.
    { apply Hkeep. subst h2. unfold settle_promise. simpl.
      rewrite list_lookup_insert_ne by done.
      by rewrite list_lookup_insert_eq by lia. }
    split.
    { apply Hkeep. subst h2. apply promise_state_settle.
      unfold settle_promise. rewrite length_insert. lia. }
    split; [by rewrite Hw'|]. split; [by rewrite Hw'|].
    intros d'. by apply resolve_hit.
  - subst w2. cbn [reactions set_reactions]. by rewrite lookup_app_r, Nat.sub_diag.
  - subst w2. cbn [heap set_heap set_reactions]. apply promise_state_settle.
    unfold settle_promise. rewrite length_insert. lia.
  - done.
  - subst w2. by change (lookup_result w1' (env_ref env) resolvable = Some
      {| id := nextId w; status := Busy; promise := VObj (length h);
         value := None; error := None |}).
  - done.
Qed.

(** ** The registry *)

Lemma Map_set_elem_of m k v k' v' :
  NoDup m.*1 →
  (k', v') ∈ Map_set m k v ↔ (k' = k ∧ v' = v) ∨ (k' ≠ k ∧ (k', v') ∈ m).
Proof.
  induction m as [|[k0 v0] m IH]; csimpl; intros Hnd.
  { rewrite list_elem_of_singleton. split.
    - intros [= -> ->]. by left.
    - intros [[-> ->]|[_ H]]; [done|]. by apply elem_of_nil in H. }
  apply NoDup_cons in Hnd as [Hk0 Hnd].
  destruct (Nat.eqb_spec k0 k) as [->|Hne]; rewrite !elem_of_cons.
  - split.
    + intros [[= -> ->]|H]; [by left|]. right. split; [|by right].
      intros ->. apply Hk0. by apply (list_elem_of_fmap_2 fst _ (k, v')).
    + intros [[-> ->]|[Hne [[= -> ->]|H]]]; [by left|done|by right].
  - rewrite (IH Hnd). split.
    + intros [[= -> ->]|[[-> ->]|[Hne' H]]].
      * right. split; [done|by left].
      * by left.
      * right. split; [done|by right].
    + intros [[-> ->]|[Hne' [[= -> ->]|H]]].
      * right. by left.
      * by left.
      * right. right. done.
Qed.

Lemma Map_set_set m k v v' : Map_set (Map_set m k v) k v' = Map_set m k v'.
Proof.
  induction m as [|[k0 v0] m IH]; simpl.
  { by rewrite Nat.eqb_refl. }
  destruct (Nat.eqb_spec k0 k) as [->|Hne]; simpl.
  - by rewrite Nat.eqb_refl.
  - destruct (Nat.eqb_spec k0 k); [done|]. by rewrite IH.
Qed.

Lemma Map_delete_elem_of m k k' v' :
  (k', v') ∈ Map_delete m k ↔ k' ≠ k ∧ (k', v') ∈ m.
Proof.
  induction m as [|[k0 v0] m IH]; simpl.
  { split; [intros H|intros [_ H]]; by apply elem_of_nil in H. }
  destruct (Nat.eqb_spec k0 k) as [->|Hne]; rewrite ?elem_of_cons, IH.
  - split; [intros [? ?]; split; [done|by right]|].
    intros [Hne [[= -> ->]|H]]; [done|done].
  - split.
    + intros [[= -> ->]|[? ?]]; [split; [done|by left]|split; [done|by right]].
    + intros [Hne' [[= -> ->]|H]]; [by left|by right].
Qed.

Lemma Map_delete_fresh m k : k ∉ m.*1 → Map_delete m k = m.
Proof.
  induction m as [|[k0 v0] m IH]; csimpl; [done|].
  rewrite not_elem_of_cons. intros [Hne H].
  destruct (Nat.eqb_spec k0 k); [by subst|]. by rewrite IH.
Qed.

Lemma Map_delete_set m k v : k ∉ m.*1 → Map_delete (Map_set m k v) k = m.
Proof.
  induction m as [|[k0 v0] m IH]; csimpl.
  { by rewrite Nat.eqb_refl. }
  rewrite not_elem_of_cons. intros [Hne H].
  destruct (Nat.eqb_spec k0 k); [by subst|]. simpl.
  destruct (Nat.eqb_spec k0 k); [by subst|]. by rewrite IH.
Qed.

Lemma set_listenerIds_same w : set_listenerIds w (listenerIds w) = w.
Proof. by destruct w. Qed.

(** X10. [listen] subscribes the listener to exactly the ids given: the
    registry holds for it the array it was given, replacing what the listener
    was subscribed to and keeping its place in the order, or putting a new
    listener last; other listeners and the rest of the resolver are
    untouched. *)
Theorem listen_registers (w : world) (listener : fn) (resolutionIds : loc) :
  NoDup (listenerIds w).*1 →
  let w' := listen w listener resolutionIds in
  (∀ ids, (listener, ids) ∈ listenerIds w' ↔ ids = resolutionIds) ∧
  (∀ l ids, l ≠ listener → ((l, ids) ∈ listenerIds w' ↔ (l, ids) ∈ listenerIds w)) ∧
  (listenerIds w').*1 =
    (if bool_decide (listener ∈ (listenerIds w).*1) then (listenerIds w).*1
     else (listenerIds w).*1 ++ [listener]) ∧
  (∀ ids, listen w' listener ids = listen w listener ids) ∧
  results w' = results w ∧ nextId w' = nextId w ∧ heap w' = heap w ∧
  reactions w' = reactions w ∧ trace w' = trace w.
Proof.
  intros Hnd. cbv zeta. split; [|split; [|split; [|split]]]; try done.
  - intros ids. simpl. rewrite (Map_set_elem_of _ _ _ _ _ Hnd). split.
    + by intros [[_ ->]|[? _]].
    + intros ->. by left.
  - intros l ids Hne. simpl. rewrite (Map_set_elem_of _ _ _ _ _ Hnd). split.
    + by intros [[? _]|[_ ?]].
    + intros H. by right.
  - apply Map_set_keys.
  - intros ids. unfold listen. simpl. by rewrite Map_set_set.
Qed.

(** X11. [unlisten] removes the listener, whether or not it is registered,
    keeps the others in their order, and undoes a [listen] of a listener that
    was not registered before. *)
Theorem unlisten_removes (w : world) (listener : fn) :
  let w' := unlisten w listener in
  (listener ∉ (listenerIds w').*1) ∧
  (∀ l ids, l ≠ listener → ((l, ids) ∈ listenerIds w' ↔ (l, ids) ∈ listenerIds w)) ∧
  listenerIds w' `sublist_of` listenerIds w ∧
  (listener ∉ (listenerIds w).*1 → w' = w) ∧
  unlisten w' listener = w' ∧
  (listener ∉ (listenerIds w).*1 → ∀ ids, unlisten (listen w listener ids) listener = w) ∧
  results w' = results w ∧ nextId w' = nextId w ∧ heap w' = heap w ∧
  reactions w' = reactions w ∧ trace w' = trace w.
Proof.
  cbv zeta. split; [|split; [|split; [|split; [|split; [|split]]]]]; try done.
  - apply Map_delete_keys.
  - intros l ids Hne. simpl. rewrite Map_delete_elem_of. split; [by intros [_ ?]|done].
  - apply Map_delete_sublist.
  - intros H. unfold unlisten. rewrite (Map_delete_fresh _ _ H). apply set_listenerIds_same.
  - unfold unlisten. simpl.
    rewrite (Map_delete_fresh (Map_delete _ _) _ (Map_delete_keys _ _)). done.
  - intros H ids. unfold unlisten, listen. simpl. rewrite (Map_delete_set _ _ _ H).
    by destruct w.
Qed.

(** X12. A notification for an id no registered listener is subscribed to
    calls nobody and leaves the world as it is. *)
Theorem notify_no_subscriber (w : world) (n : Z) :
  subscribed (heap w) (listenerIds w) n = [] → notify w true n = w.
Proof. intros H. unfold notify. by apply fanout_no_subscriber. Qed.

(** ** Folding statuses *)

Lemma fold_reduceStatuses_Error l : ∀ init,
  fold_left reduceStatuses l init = Error ↔ init = Error ∨ Error ∈ l.
Proof.
  induction l as [|x l IH]; intros init; simpl.
  { split; [by left|]. intros [?|H]; [done|]. by apply elem_of_nil in H. }
  rewrite IH, elem_of_cons. destruct init, x; unfold reduceStatuses; simpl; intuition congruence.
Qed.

Lemma fold_reduceStatuses_Ready l : ∀ init,
  fold_left reduceStatuses l init = Ready ↔ init = Ready ∧ Forall (λ x, x = Ready) l.
Proof.
  induction l as [|x l IH]; intros init; simpl.
  { split; [done|by intros [? _]]. }
  rewrite IH, Forall_cons. destruct init, x; unfold reduceStatuses; simpl; intuition congruence.
Qed.

Lemma fold_reduceStatuses_Busy (init : Status) (l : list Status) :
  fold_left reduceStatuses l init = Busy ↔ (Error ∉ init :: l) ∧ Busy ∈ init :: l.
Proof.
  assert (EqDecision Status) as Hdec by (intros [] []; (by left) || (by right)).
  pose proof (fold_reduceStatuses_Error l init) as [HE1 HE2].
  pose proof (fold_reduceStatuses_Ready l init) as [HR1 HR2].
  rewrite Forall_forall in HR1, HR2. rewrite !elem_of_cons.
  destruct (fold_left reduceStatuses l init).
  - destruct (HR1 eq_refl) as [-> HR]. split; [done|].
    intros [_ [?|Hin]]; [done|]. by apply HR in Hin.
  - split; [intros _|done]. split.
    + intros [<-|Hin]; [discriminate HE2; by left|discriminate HE2; by right].
    + destruct (decide (init = Busy)) as [->|Hn]; [by left|].
      destruct (decide (Busy ∈ l)) as [|Hn']; [by right|].
      discriminate HR2. split.
      * destruct init; [done|done|]. discriminate HE2; by left.
      * intros x Hx. destruct x; [done|done|]. discriminate HE2; by right.
  - split; [done|]. intros [Hn _]. destruct Hn.
    destruct (HE1 eq_refl) as [->|Hin]; [by left|by right].
Qed.

(** X13. [reduceStatuses] folded from the left over a list of statuses,
    starting from [init]: the result is [Error] if and only if one of the
    statuses is, [Ready] if and only if all of them are, and [Busy] if and
    only if none is [Error] and one is [Busy]; hence it does not depend on the
    order of the list. *)
Theorem reduceStatuses_fold (init : Status) (l : list Status) :
  (fold_left reduceStatuses l init = Error ↔ Error ∈ init :: l) ∧
  (fold_left reduceStatuses l init = Ready ↔ Forall (λ x, x = Ready) (init :: l)) ∧
  (fold_left reduceStatuses l init = Busy ↔ (Error ∉ init :: l) ∧ Busy ∈ init :: l) ∧
  (∀ l', l ≡ₚ l' → fold_left reduceStatuses l' init = fold_left reduceStatuses l init).
Proof.
  split; [|split; [|split]].
  - rewrite fold_reduceStatuses_Error, elem_of_cons. intuition congruence.
  - rewrite fold_reduceStatuses_Ready, Forall_cons. intuition congruence.
  - apply fold_reduceStatuses_Busy.
  - intros l' Hp. destruct (fold_left reduceStatuses l init) eqn:E.
    + apply fold_reduceStatuses_Ready in E as [-> E].
      apply fold_reduceStatuses_Ready. split; [done|]. by rewrite <- Hp.
    + apply fold_reduceStatuses_Busy in E. apply fold_reduceStatuses_Busy.
      rewrite !elem_of_cons in *. by rewrite <- Hp.
    + apply fold_reduceStatuses_Error in E. apply fold_reduceStatuses_Error.
      by rewrite <- Hp.
Qed.

(** ** What happens only in one place *)

Lemma onFulfilled_trace w promise env f n value :
  trace (onFulfilled w promise env f n value).1 = trace w.
Proof.
  unfold onFulfilled. destruct (lookup_result w env f) as [r|]; [|done].
  by destruct (id r =? n).
Qed.

Lemma onRejected_trace w promise env f n path error :
  trace (onRejected w promise env f n path error).1 = trace w.
Proof.
  unfold onRejected. destruct (lookup_result w env f) as [r|]; [|done].
  cbn [heap set_heap]. destruct (id r =? n); [|done].
  by destruct (error_or_new _ error).
Qed.

Lemma settle_trace w l s : trace (settle w l s) = trace w.
Proof.
  unfold settle. destruct (heap w !! l) as [[|[| |]|]|]; try done.
  destruct (existsb _ _); [done|]. destruct s as [|v|e]; try done.
  by destruct (resolve_promise _ _ l v).
Qed.

Lemma invoke_listener_calls w i arg :
  listener_calls (trace (invoke w i arg)) = listener_calls (trace w).
Proof.
  unfold invoke. destruct (held w !! i) as [[]|]; try done.
  - by rewrite onFulfilled_trace.
  - by rewrite onRejected_trace.
Qed.

(** X14. [resolve] registers callbacks, on a promise or with a [then] of
    user code, in one case only: when the table had no entry and the
    resolvable returned a promise-shaped value whose [then] was called and
    returned.  A memoised result, a value that is not promise-shaped, an
    exception of the resolvable and a [then] that cannot be called or throws
    leave the registered reactions and the callbacks in the hands of user
    code as they are. *)
Theorem resolve_registers_for_thenable_only (w : world) (env : Env) (resolvable : fn)
    (dataResolvable : option fn) :
  reactions (resolve w env resolvable dataResolvable).1 ≠ reactions w ∨
  held (resolve w env resolvable dataResolvable).1 ≠ held w →
  lookup_result w (env_ref env) resolvable = None ∧
  ∃ v h,
    resolvable_body resolvable env (data_promise w (env_ref env) dataResolvable).2
      (data_promise w (env_ref env) dataResolvable).1 = (Return v, h) ∧
    isPromiseLike h v = true ∧
    ∃ h' p rs, then_extractDefault h (reactions w) v = (h', Return (p, rs)).
Proof.
  intros Hne.
  destruct (lookup_result w (env_ref env) resolvable) as [r0|] eqn:H.
  { rewrite (resolve_hit _ _ _ _ _ H) in Hne. by destruct Hne. }
  split; [done|].
  rewrite (resolve_miss _ _ _ _ H) in Hne. cbv zeta in Hne.
  destruct (at_call_fields w (env_ref env) resolvable dataResolvable)
    as (_ & _ & _ & Hr & Hheld & _ & Hh). cbv zeta in Hr, Hheld, Hh.
  rewrite Hh, Hr in Hne.
  destruct (resolvable_body _ _ _ _) as [[v|e] h]; cbn [fst] in Hne;
    [|exfalso; by destruct Hne as [Hne|Hne]; apply Hne].
  destruct (isPromiseLike h v) eqn:E; cbn [negb fst] in Hne;
    [|exfalso; by destruct Hne as [Hne|Hne]; apply Hne].
  destruct (then_extractDefault h (reactions w) v) as [h' [[p rs]|e]] eqn:Ht;
    [|exfalso; by destruct Hne as [Hne|Hne]; apply Hne].
  exists v, h. split; [done|]. split; [done|]. by exists h', p, rs.
Qed.

(** X15. Listeners are called from one place only.  A step of a run calls a
    listener only if it is the job loop running a notification whose
    [didUpdate] is true and whose id some registered listener is subscribed
    to.  No call of [resolve], [listen] or [unlisten], no settling of a
    promise and no other reaction calls a listener. *)
Theorem listeners_called_by_notification_only (w : world) (a : action) :
  listener_calls (trace (step w a)) ≠ listener_calls (trace w) →
  ∃ i n, a = React i ∧ reactions w !! i = Some (Notify true n) ∧
         subscribed (heap w) (listenerIds w) n ≠ [].
Proof.
  intros Hne. destruct a as [c|l s|i|i arg]; cbn [step] in Hne.
  4: { by rewrite invoke_listener_calls in Hne. }
  - by rewrite exec_call_listener_calls in Hne.
  - by rewrite settle_trace in Hne.
  - unfold react in Hne. destruct (reactions w !! i) as [r|] eqn:Hi; [|done].
    destruct r as [src derived|src derived|promise env f n path|didUpdate n|src n];
      cbn [awaited] in Hne; cbv zeta in Hne.
    5: { by destruct (promise_state (heap w) (VObj src)) as [[|v|e]|]. }
    + destruct (promise_state (heap w) (VObj src)) as [[|v|e]|]; try done.
      cbn [run_reaction] in Hne.
      by destruct (resolve_promise _ _ _ _).
    + by destruct (promise_state (heap w) (VObj src)) as [[|v|e]|].
    + destruct (promise_state (heap w) promise) as [[|v|e]|]; try done;
        cbn [run_reaction] in Hne.
      * pose proof (onFulfilled_trace (set_reactions w (delete i (reactions w)))
                      promise env f n v) as Ht.
        destruct (onFulfilled _ _ _ _ _ _) as [w' d]. cbn [fst trace set_reactions] in Ht, Hne.
        by rewrite Ht in Hne.
      * pose proof (onRejected_trace (set_reactions w (delete i (reactions w)))
                      promise env f n path e) as Ht.
        destruct (onRejected _ _ _ _ _ _ _) as [w' d]. cbn [fst trace set_reactions] in Ht, Hne.
        by rewrite Ht in Hne.
    + destruct didUpdate; [|done]. exists i, n. split; [done|]. split; [done|].
      intros Hnone. apply Hne. cbn [run_reaction]. unfold notify.
      cbn [listenerIds set_reactions]. by rewrite fanout_no_subscriber.
Qed.
End Resolver.

(** ** The claims at work on the example program *)

Local Abbreviation ex_resolve := (resolve ex_joinPaths ex_resolvable_body ex_then_body).
Local Abbreviation ex_run :=
  (run ex_joinPaths ex_resolvable_body ex_then_body ex_listener_body).
Local Abbreviation ex_react :=
  (react ex_joinPaths ex_resolvable_body ex_then_body ex_listener_body).
Local Abbreviation ex_notify :=
  (notify ex_joinPaths ex_resolvable_body ex_then_body ex_listener_body).
Local Abbreviation ex_run_reaction :=
  (run_reaction ex_joinPaths ex_resolvable_body ex_then_body ex_listener_body).
Local Abbreviation ex_call_listener :=
  (call_listener ex_joinPaths ex_resolvable_body ex_then_body ex_listener_body).
Local Abbreviation ex_step :=
  (step ex_joinPaths ex_resolvable_body ex_then_body ex_listener_body).

(** The end-to-end scenario of the synchronous case: resolvable 1 returns
    [42]. *)
Example resolve_42 :
  (ex_resolve (new_Resolver ex_heap) ex_env 1%nat None).2 =
  Return {| id := 1; status := Ready; promise := VObj 8%nat; error := None;
            value := Some (VNum 42) |}.
Proof. vm_compute. reflexivity. Qed.



Lemma stale_completion_discarded_witness :
  ¬ (∃ currentResult,
       lookup_result ex_replaced 0%nat 2%nat = Some currentResult ∧ id currentResult = 1) ∧
  ((∀ value, onFulfilled ex_replaced (VObj 8%nat) 0%nat 2%nat 1 value = (ex_replaced, false)) ∧
   (∀ error, onRejected ex_replaced (VObj 8%nat) 0%nat 2%nat 1 "/a/b" error =
               (set_heap ex_replaced (annotate (heap ex_replaced) error "/a/b"), false)) ∧
   (∀ s, s ≠ Pending →
         let w' := ex_run_reaction ex_replaced (Changes (VObj 8%nat) 0%nat 2%nat 1 "/a/b") s in
         results w' = results ex_replaced ∧ listenerIds w' = listenerIds ex_replaced ∧
         trace w' = trace ex_replaced ∧ nextId w' = nextId ex_replaced ∧
         reactions w' = reactions ex_replaced ++ [Notify false 1]) ∧
   (∀ w' s, ex_run_reaction w' (Notify false 1) s = w')).
Proof.
  assert (¬ (∃ currentResult,
       lookup_result ex_replaced 0%nat 2%nat = Some currentResult ∧ id currentResult = 1)) as H.
  { intros (r & Hr & Hid). vm_compute in Hr. injection Hr as <-. vm_compute in Hid.
    discriminate Hid. }
  split; [exact H|].
  exact (stale_completion_discarded ex_joinPaths ex_resolvable_body ex_then_body ex_listener_body
           ex_replaced (VObj 8%nat) 0%nat 2%nat 1 "/a/b" H).
Defined.

(** C10 on the example: the attempt with id 1 is stale, its promise rejects
    with the not-found error 2, and the error gets the path all the same. *)
Lemma stale_rejection_annotates_witness :
  ¬ (∃ currentResult,
       lookup_result ex_replaced 0%nat 2%nat = Some currentResult ∧ id currentResult = 1) ∧
  heap ex_replaced !! 2%nat = Some (Obj ClsNotFoundError ∅) ∧
  truthy (get (heap ex_replaced) (VObj 2%nat) "pathname") = false ∧
  ∃ w',
    onRejected ex_replaced (VObj 8%nat) 0%nat 2%nat 1 "/a/b" (VObj 2%nat) = (w', false) ∧
    ex_run_reaction ex_replaced (Changes (VObj 8%nat) 0%nat 2%nat 1 "/a/b")
      (Rejected (VObj 2%nat)) = set_reactions w' (reactions w' ++ [Notify false 1]) ∧
    ex_notify w' false 1 = w' ∧
    results w' = results ex_replaced ∧ listenerIds w' = listenerIds ex_replaced ∧
    trace w' = trace ex_replaced ∧
    heap w' = <[2%nat := Obj ClsNotFoundError (<["pathname" := VStr "/a/b"]> ∅)]>
                (heap ex_replaced) ∧
    get (heap w') (VObj 2%nat) "pathname" = VStr "/a/b".
Proof.
  assert (¬ (∃ currentResult,
       lookup_result ex_replaced 0%nat 2%nat = Some currentResult ∧ id currentResult = 1)) as H.
  { intros (r & Hr & Hid). vm_compute in Hr. injection Hr as <-. vm_compute in Hid.
    discriminate Hid. }
  assert (heap ex_replaced !! 2%nat = Some (Obj ClsNotFoundError ∅)) as Hl
    by (vm_compute; reflexivity).
  assert (truthy (get (heap ex_replaced) (VObj 2%nat) "pathname") = false) as Hp
    by (vm_compute; reflexivity).
  split; [exact H|]. split; [exact Hl|]. split; [exact Hp|].
  exact (stale_rejection_annotates ex_joinPaths ex_resolvable_body ex_then_body ex_listener_body
           ex_replaced (VObj 8%nat) 0%nat 2%nat 1 "/a/b" 2%nat ∅ H Hl Hp).
Defined.


(** A value that is promise-shaped and whose [then] is not a function makes
    [resolve] throw as well: calling it is a [TypeError]. *)
Example resolve_then_not_callable :
  let '(w', c) := ex_resolve (new_Resolver ex_heap) ex_env 4%nat None in
  c = Throw (VObj 8%nat) ∧ heap w' !! 8%nat = Some (Obj ClsTypeError ∅) ∧
  lookup_result w' 0%nat 4%nat = None.
Proof. vm_compute. repeat split; reflexivity. Qed.

(** A promise-like object of user code: resolvable 6 returns object 7, whose
    [then] is the function 20.  [resolve] returns a [Busy] Resolution, and
    user code holds the three callbacks.  When it calls the first with
    ["ok"] and the last with [true], the record is [Ready] and the
    notification is queued. *)
Example resolve_then_of_user_code :
  let '(w', c) := ex_resolve (new_Resolver ex_heap_then) ex_env 6%nat None in
  let result := {| id := 1; status := Busy; promise := VObj 7%nat; error := None;
                   value := None |} in
  let w := ex_run w' [Invoke 0%nat (VStr "ok"); Invoke 2%nat (VBool true)] in
  c = Return result ∧
  reactions w' = [] ∧
  held w' = [OnFulfilled (VObj 7%nat) 0%nat 6%nat 1;
             OnRejected (VObj 7%nat) 0%nat 6%nat 1 "/a/b"; OnDidUpdate 1] ∧
  lookup_result w 0%nat 6%nat =
    Some {| id := 1; status := Ready; promise := VObj 7%nat; error := None;
            value := Some (VStr "ok") |} ∧
  reactions w = [Notify true 1].
Proof. vm_compute. repeat split; reflexivity. Qed.

(** A [then] of user code that throws: on a heap whose object 7 has the
    function 21 as its [then], the exception leaves [resolve], and nothing
    is memoised. *)
Example resolve_then_throws :
  let h := ex_heap ++ [Obj ClsObject {[ "then" := VFun 21%nat ]}] in
  let '(w', c) := ex_resolve (new_Resolver h) ex_env 6%nat None in
  c = Throw (VStr "no") ∧ lookup_result w' 0%nat 6%nat = None ∧ nextId w' = 2.
Proof. vm_compute. repeat split; reflexivity. Qed.

(** A [then] of user code that returns no promise: with the function 22,
    which returns [undefined], the [Busy] record is memoised with that
    [promise], and the call [promise.then] of [listenForChanges] then throws
    a [TypeError] out of [resolve].  The next [resolve] returns the record. *)
Example resolve_throws_after_memoising :
  let h := ex_heap ++ [Obj ClsObject {[ "then" := VFun 22%nat ]}] in
  let result := {| id := 1; status := Busy; promise := VUndefined; error := None;
                   value := None |} in
  let '(w', c) := ex_resolve (new_Resolver h) ex_env 6%nat None in
  c = Throw (VObj 9%nat) ∧ heap w' !! 9%nat = Some (Obj ClsTypeError ∅) ∧
  lookup_result w' 0%nat 6%nat = Some result ∧
  ex_resolve w' ex_env 6%nat None = (w', Return result).
Proof. vm_compute. repeat split; reflexivity. Qed.


Lemma resolve_synchronous_witness :
  lookup_result (new_Resolver ex_heap) (env_ref ex_env) 1%nat = None ∧
  ex_resolvable_body 1%nat ex_env
    (data_promise (new_Resolver ex_heap) (env_ref ex_env) None).2
    (data_promise (new_Resolver ex_heap) (env_ref ex_env) None).1 =
    (Return (VNum 42), ex_heap ++ [Promise (Fulfilled VUndefined)]) ∧
  isPromiseLike (ex_heap ++ [Promise (Fulfilled VUndefined)]) (VNum 42) = false ∧
  ∃ w' p,
    let result := {| id := nextId (new_Resolver ex_heap); status := Ready;
                     value := Some (VNum 42); promise := p; error := None |} in
    ex_resolve (new_Resolver ex_heap) ex_env 1%nat None = (w', Return result) ∧
    lookup_result w' (env_ref ex_env) 1%nat = Some result ∧
    promise_state (ex_heap ++ [Promise (Fulfilled VUndefined)]) p = None ∧
    promise_state (heap w') p = Some (Fulfilled (VNum 42)).
Proof.
  assert (lookup_result (new_Resolver ex_heap) (env_ref ex_env) 1%nat = None) as H1
    by (vm_compute; reflexivity).
  assert (ex_resolvable_body 1%nat ex_env
    (data_promise (new_Resolver ex_heap) (env_ref ex_env) None).2
    (data_promise (new_Resolver ex_heap) (env_ref ex_env) None).1 =
    (Return (VNum 42), ex_heap ++ [Promise (Fulfilled VUndefined)])) as H2
    by (vm_compute; reflexivity).
  assert (isPromiseLike (ex_heap ++ [Promise (Fulfilled VUndefined)]) (VNum 42) = false) as H3
    by (vm_compute; reflexivity).
  split; [exact H1|]. split; [exact H2|]. split; [exact H3|].
  exact (resolve_synchronous ex_joinPaths ex_resolvable_body ex_then_body
           (new_Resolver ex_heap) ex_env 1%nat None (VNum 42) _ H1 H2 H3).
Defined.

(** The asynchronous scenario: resolvable 2 returns promise 1, which then
    rejects, here with the not-found error 2. *)
Local Abbreviation ex_rejected :=
  (ex_run (new_Resolver ex_heap)
     [Call (CallResolve ex_env 2%nat None); Settle 1%nat (Rejected (VObj 2%nat)); React 0%nat]).

Lemma rejection_stored_witness :
  reactions ex_rejected !! 0%nat = Some (Changes (VObj 8%nat) 0%nat 2%nat 1 "/a/b") ∧
  promise_state (heap ex_rejected) (VObj 8%nat) = Some (Rejected (VObj 2%nat)) ∧
  lookup_result ex_rejected 0%nat 2%nat =
    Some {| id := 1; status := Busy; promise := VObj 8%nat; error := None; value := None |} ∧
  lookup_result (ex_react ex_rejected 0%nat) 0%nat 2%nat =
    Some {| id := 1; status := Error; promise := VObj 8%nat; error := Some (VObj 2%nat);
            value := None |} ∧
  ∀ h actions env' f' r,
    lookup_result (ex_run (new_Resolver h) actions) env' f' = Some r →
    status r = Error → ∃ e, error r = Some e ∧ truthy e = true.
Proof.
  assert (reactions ex_rejected !! 0%nat = Some (Changes (VObj 8%nat) 0%nat 2%nat 1 "/a/b"))
    as H1 by (vm_compute; reflexivity).
  assert (promise_state (heap ex_rejected) (VObj 8%nat) = Some (Rejected (VObj 2%nat)))
    as H2 by (vm_compute; reflexivity).
  assert (lookup_result ex_rejected 0%nat 2%nat =
    Some {| id := 1; status := Busy; promise := VObj 8%nat; error := None; value := None |})
    as H3 by (vm_compute; reflexivity).
  split; [exact H1|]. split; [exact H2|]. split; [exact H3|].
  destruct (rejection_stored ex_joinPaths ex_resolvable_body ex_then_body ex_listener_body
              ex_rejected 0%nat (VObj 8%nat) 0%nat 2%nat 1 "/a/b" (VObj 2%nat) _ H1 H2 H3 eq_refl)
    as [_ Hinv].
  split; [vm_compute; reflexivity|exact Hinv].
Defined.

(** A rejection with a falsy value stores a new [Error] object. *)
Example rejection_with_undefined :
  let w := ex_run (new_Resolver ex_heap)
             [Call (CallResolve ex_env 2%nat None); Settle 1%nat (Rejected VUndefined);
              React 0%nat; React 0%nat] in
  lookup_result w 0%nat 2%nat =
    Some {| id := 1; status := Error; promise := VObj 8%nat; error := Some (VObj 9%nat);
            value := None |} ∧
  heap w !! 9%nat = Some (Obj ClsError ∅).
Proof. vm_compute. split; reflexivity. Qed.

Lemma not_found_annotation_witness :
  lookup_result (new_Resolver ex_heap) (env_ref ex_env) 2%nat = None ∧
  ex_resolvable_body 2%nat ex_env
    (data_promise (new_Resolver ex_heap) (env_ref ex_env) None).2
    (data_promise (new_Resolver ex_heap) (env_ref ex_env) None).1 =
    (Return (VObj 1%nat), ex_heap ++ [Promise (Fulfilled VUndefined)]) ∧
  is_promise (ex_heap ++ [Promise (Fulfilled VUndefined)]) (VObj 1%nat) = true ∧
  reactions (ex_resolve (new_Resolver ex_heap) ex_env 2%nat None).1 !! 1%nat =
    Some (Changes (VObj 8%nat) 0%nat 2%nat 1 "/a/b") ∧
  get (heap (ex_react ex_rejected 0%nat)) (VObj 2%nat) "pathname" = VStr "/a/b".
Proof.
  assert (lookup_result (new_Resolver ex_heap) (env_ref ex_env) 2%nat = None) as H1
    by (vm_compute; reflexivity).
  assert (ex_resolvable_body 2%nat ex_env
    (data_promise (new_Resolver ex_heap) (env_ref ex_env) None).2
    (data_promise (new_Resolver ex_heap) (env_ref ex_env) None).1 =
    (Return (VObj 1%nat), ex_heap ++ [Promise (Fulfilled VUndefined)])) as H2
    by (vm_compute; reflexivity).
  assert (is_promise (ex_heap ++ [Promise (Fulfilled VUndefined)]) (VObj 1%nat) = true) as H3
    by (vm_compute; reflexivity).
  split; [exact H1|]. split; [exact H2|]. split; [exact H3|].
  destruct (not_found_annotation ex_joinPaths ex_resolvable_body ex_then_body (new_Resolver ex_heap)
              ex_env 2%nat None 1%nat _ H1 H2 H3) as [Hreg _].
  split; [exact Hreg|vm_compute; reflexivity].
Defined.

(** An error that already has a path keeps it. *)
Example annotated_error_kept :
  let w := ex_run (new_Resolver ex_heap)
             [Call (CallResolve ex_env 2%nat None); Settle 1%nat (Rejected (VObj 3%nat));
              React 0%nat; React 0%nat] in
  get (heap w) (VObj 3%nat) "pathname" = VStr "/old" ∧ heap w !! 3%nat = ex_heap !! 3%nat.
Proof. vm_compute. split; reflexivity. Qed.


(** A listener subscribed to another id is not called; a listener that is
    registered again keeps its place, a new one goes to the end.  Listener
    10 is registered again with the array of listener 13. *)
Example notification_order :
  listener_calls (trace (ex_notify (listen ex_listening 10%nat 9%nat) true 7)) = [11%nat] ∧
  listener_calls (trace (ex_notify (listen ex_listening 10%nat 9%nat) true 8)) =
    [10%nat; 13%nat] ∧
  listener_calls
    (trace (ex_notify (listen (unlisten ex_listening 10%nat) 10%nat 9%nat) true 8)) =
    [13%nat; 10%nat].
Proof. vm_compute. repeat split; reflexivity. Qed.

(** Listeners 10, 12 and 11, all subscribed to id 7; listener 12 throws. *)
Local Abbreviation ex_throwing :=
  (set_listenerIds ex_listening [(10%nat, 7%nat); (12%nat, 8%nat); (11%nat, 8%nat)]).


(** C7 as stated fails when the [default] property holds a promise.
    Resolvable 2 returns promise 1, which is fulfilled with object 5, whose
    [default] is promise 4.  The downstream promise follows promise 4: the
    Resolution stays [Busy], and once promise 4 is fulfilled with [5], the
    value stored is [5], not the value of the property. *)
Lemma default_promise_counterexample :
  let w1 := ex_run (new_Resolver ex_heap)
              [Call (CallResolve ex_env 2%nat None);
               Settle 1%nat (Fulfilled (VObj 5%nat)); React 0%nat] in
  let w2 := ex_run w1 [Settle 4%nat (Fulfilled (VNum 5)); React 1%nat; React 0%nat] in
  promise_state (heap w1) (VObj 1%nat) = Some (Fulfilled (VObj 5%nat)) ∧
  hasDefault (heap w1) (VObj 5%nat) = true ∧
  get (heap w1) (VObj 5%nat) "default" = VObj 4%nat ∧
  promise_state (heap w1) (VObj 8%nat) = Some Pending ∧
  reactions w1 = [Changes (VObj 8%nat) 0%nat 2%nat 1 "/a/b"; Follow 4%nat 8%nat] ∧
  lookup_result w1 0%nat 2%nat =
    Some {| id := 1; status := Busy; promise := VObj 8%nat; error := None; value := None |} ∧
  promise_state (heap w2) (VObj 8%nat) = Some (Fulfilled (VNum 5)) ∧
  lookup_result w2 0%nat 2%nat =
    Some {| id := 1; status := Ready; promise := VObj 8%nat; error := None;
            value := Some (VNum 5) |} ∧
  get (heap w2) (VObj 5%nat) "default" = VObj 4%nat.
Proof. vm_compute. repeat split; reflexivity. Qed.

(** The scenario of the spec: the promise is fulfilled with a module-like
    object whose [default] is ["x"]. *)
Local Abbreviation ex_fulfilled :=
  (ex_run (new_Resolver ex_heap)
     [Call (CallResolve ex_env 2%nat None); Settle 1%nat (Fulfilled (VObj 0%nat))]).

(** The promise is fulfilled with object 9, whose [default] is object 8,
    which has the built-in [then] and is no promise. *)
Local Abbreviation ex_borrowed :=
  (ex_run (new_Resolver ex_heap_then)
     [Call (CallResolve ex_env 2%nat None); Settle 1%nat (Fulfilled (VObj 9%nat))]).

(** C7 on the example.  With the module-like object the value stored is
    ["x"].  With object 9 the result of the unwrapping is object 8; the run
    time calls its [then], which throws, and the record stored is an [Error]
    with the [TypeError]. *)
Lemma default_unwrapped_witness :
  heap ex_fulfilled !! 8%nat = Some (Promise Pending) ∧
  thenable (heap ex_fulfilled) (extractDefault (heap ex_fulfilled) (VObj 0%nat)) = false ∧
  extractDefault (heap ex_fulfilled) (VObj 0%nat) = VStr "x" ∧
  promise_state
    (heap (ex_run_reaction ex_fulfilled (Unwrap 1%nat 8%nat) (Fulfilled (VObj 0%nat))))
    (VObj 8%nat) = Some (Fulfilled (extractDefault (heap ex_fulfilled) (VObj 0%nat))) ∧
  lookup_result (ex_run ex_fulfilled [React 0%nat; React 0%nat]) 0%nat 2%nat =
    Some {| id := 1; status := Ready; promise := VObj 8%nat; error := None;
            value := Some (VStr "x") |} ∧
  heap ex_borrowed !! 12%nat = Some (Promise Pending) ∧
  extractDefault (heap ex_borrowed) (VObj 9%nat) = VObj 8%nat ∧
  get (heap ex_borrowed) (VObj 8%nat) "then" = VPromiseThen ∧
  is_promise (heap ex_borrowed) (VObj 8%nat) = false ∧
  (let w' := ex_run_reaction ex_borrowed (Unwrap 1%nat 12%nat) (Fulfilled (VObj 9%nat)) in
   heap w' !! 13%nat = Some (Obj ClsTypeError ∅) ∧
   promise_state (heap w') (VObj 12%nat) = Some (Rejected (VObj 13%nat))) ∧
  lookup_result (ex_run ex_borrowed [React 0%nat; React 0%nat]) 0%nat 2%nat =
    Some {| id := 1; status := Error; promise := VObj 12%nat; error := Some (VObj 13%nat);
            value := None |}.
Proof.
  assert (heap ex_fulfilled !! 8%nat = Some (Promise Pending)) as H1
    by (vm_compute; reflexivity).
  assert (thenable (heap ex_fulfilled) (extractDefault (heap ex_fulfilled) (VObj 0%nat))
          = false) as H2 by (vm_compute; reflexivity).
  assert (heap ex_borrowed !! 12%nat = Some (Promise Pending)) as H3
    by (vm_compute; reflexivity).
  assert (extractDefault (heap ex_borrowed) (VObj 9%nat) = VObj 8%nat) as H4
    by (vm_compute; reflexivity).
  assert (get (heap ex_borrowed) (VObj 8%nat) "then" = VPromiseThen) as H5
    by (vm_compute; reflexivity).
  assert (is_promise (heap ex_borrowed) (VObj 8%nat) = false) as H6
    by (vm_compute; reflexivity).
  destruct (default_unwrapped ex_joinPaths ex_resolvable_body ex_then_body ex_listener_body
              ex_fulfilled 1%nat 8%nat (VObj 0%nat) H1) as (_ & Hvalue & _).
  destruct (Hvalue H2) as [Hdelivered _].
  destruct (default_unwrapped ex_joinPaths ex_resolvable_body ex_then_body ex_listener_body
              ex_borrowed 1%nat 12%nat (VObj 9%nat) H3) as (_ & _ & _ & Hthrows & _).
  destruct (Hthrows 8%nat H4 H5 H6) as (Herr & Hrej & _).
  split; [exact H1|]. split; [exact H2|].
  split; [vm_compute; reflexivity|]. split; [exact Hdelivered|].
  split; [vm_compute; reflexivity|].
  split; [exact H3|]. split; [exact H4|]. split; [exact H5|]. split; [exact H6|].
  split; [exact (conj Herr Hrej)|vm_compute; reflexivity].
Defined.

(** The end-to-end scenario of the spec: listener 11 subscribes to id 1,
    resolvable 2 returns a promise that is later fulfilled with a module-like
    object.  At first the Resolution is [Busy]; once the jobs have run, the
    table holds a new [Ready] record with the same id and the unwrapped
    value, and the listener has been called once. *)
Example end_to_end :
  let w1 := ex_run (new_Resolver (ex_heap ++ [Arr [1]]))
              [Call (CallListen 11%nat 7%nat); Call (CallResolve ex_env 2%nat None)] in
  let w2 := ex_run w1 [Settle 1%nat (Fulfilled (VObj 0%nat));
                       React 0%nat; React 0%nat; React 0%nat] in
  lookup_result w1 0%nat 2%nat =
    Some {| id := 1; status := Busy; promise := VObj 9%nat; error := None; value := None |} ∧
  lookup_result w2 0%nat 2%nat =
    Some {| id := 1; status := Ready; promise := VObj 9%nat; error := None;
            value := Some (VStr "x") |} ∧
  listener_calls (trace w2) = [11%nat] ∧
  reactions w2 = [].
Proof. vm_compute. repeat split; reflexivity. Qed.

(** ** The further properties on the example program *)

(** X1 on the example: the attempt of resolvable 2 is rejected with
    [undefined]; the record is an [Error] with a new error object. *)
Lemma records_well_formed_witness :
  let actions := [Call (CallResolve ex_env 2%nat None); Settle 1%nat (Rejected VUndefined);
                  React 0%nat; React 0%nat] in
  let r := {| id := 1; status := Error; promise := VObj 8%nat; error := Some (VObj 9%nat);
              value := None |} in
  lookup_result (ex_run (new_Resolver ex_heap) actions) 0%nat 2%nat = Some r ∧
  record_shape r.
Proof.
  intros actions r.
  assert (lookup_result (ex_run (new_Resolver ex_heap) actions) 0%nat 2%nat = Some r) as H
    by (vm_compute; reflexivity).
  split; [exact H|].
  exact (records_well_formed ex_joinPaths ex_resolvable_body ex_then_body ex_listener_body
           ex_heap actions 0%nat 2%nat r H).
Defined.

(** X2 on the example: after two first calls, the entry of resolvable 2 has
    the id 2, below the counter. *)
Lemma ids_fresh_witness :
  let w := ex_run (new_Resolver ex_heap)
             [Call (CallResolve ex_env 1%nat None); Call (CallResolve ex_env 2%nat None)] in
  let r := {| id := 2; status := Busy; promise := VObj 10%nat; error := None;
              value := None |} in
  lookup_result w 0%nat 2%nat = Some r ∧
  1 ≤ nextId w ≤ 2 ^ 53 ∧ 1 ≤ id r ∧ (id r < nextId w ∨ id r = 2 ^ 53).
Proof.
  intros w r.
  assert (lookup_result w 0%nat 2%nat = Some r) as H by (vm_compute; reflexivity).
  destruct (ids_fresh ex_joinPaths ex_resolvable_body ex_then_body ex_listener_body ex_heap
              [Call (CallResolve ex_env 1%nat None); Call (CallResolve ex_env 2%nat None)])
    as (Hn & Hid & _).
  split; [exact H|]. split; [exact Hn|]. exact (Hid 0%nat 2%nat r H).
Defined.

(** X3 on the example: resolvable 3 throws and the id is taken all the
    same; resolvable 1 gets the id the counter had. *)
Lemma resolve_takes_id_witness :
  let w := new_Resolver ex_heap in
  let r := {| id := 1; status := Ready; promise := VObj 8%nat; error := None;
              value := Some (VNum 42) |} in
  nextId (ex_resolve w ex_env 3%nat None).1 = 2 ∧
  ex_resolve w ex_env 1%nat None = ((ex_resolve w ex_env 1%nat None).1, Return r) ∧
  lookup_result w (env_ref ex_env) 1%nat = None ∧
  id r = nextId w.
Proof.
  intros w r.
  assert (ex_resolve w ex_env 1%nat None = ((ex_resolve w ex_env 1%nat None).1, Return r))
    as H1 by (vm_compute; reflexivity).
  assert (lookup_result w (env_ref ex_env) 1%nat = None) as H2 by (vm_compute; reflexivity).
  split.
  - exact (proj1 (resolve_takes_id ex_joinPaths ex_resolvable_body ex_then_body ex_listener_body
                    w ex_env 3%nat None)).
  - split; [exact H1|]. split; [exact H2|].
    exact (proj1 (proj2 (resolve_takes_id ex_joinPaths ex_resolvable_body ex_then_body
                           ex_listener_body w ex_env 1%nat None)) _ r H1 H2).
Defined.

(** X4 on the example: resolvable 1, resolved twice, and again after any
    run. *)
Lemma resolve_idempotent_witness :
  let w1 := (ex_resolve (new_Resolver ex_heap) ex_env 1%nat None).1 in
  let r := {| id := 1; status := Ready; promise := VObj 8%nat; error := None;
              value := Some (VNum 42) |} in
  ex_resolve (new_Resolver ex_heap) ex_env 1%nat None = (w1, Return r) ∧
  lookup_result w1 (env_ref ex_env) 1%nat = Some r ∧
  (∀ dataResolvable', ex_resolve w1 ex_env 1%nat dataResolvable' = (w1, Return r)) ∧
  (∀ actions dataResolvable',
     ∃ r', ex_resolve (ex_run w1 actions) ex_env 1%nat dataResolvable' =
             (ex_run w1 actions, Return r') ∧
           id r' = id r ∧
           invocations (env_ref ex_env) 1%nat (trace (ex_run w1 actions)) =
             invocations (env_ref ex_env) 1%nat (trace w1)).
Proof.
  intros w1 r.
  assert (ex_resolve (new_Resolver ex_heap) ex_env 1%nat None = (w1, Return r)) as H
    by (vm_compute; reflexivity).
  split; [exact H|].
  exact (resolve_idempotent ex_joinPaths ex_resolvable_body ex_then_body ex_listener_body
           (new_Resolver ex_heap) w1 ex_env 1%nat None r H).
Defined.

(** X5 on the example: the entry of resolvable 1 survives the first call of
    resolvable 2. *)
Lemma resolve_frame_witness :
  let w := (ex_resolve (new_Resolver ex_heap) ex_env 1%nat None).1 in
  let r := {| id := 1; status := Ready; promise := VObj 8%nat; error := None;
              value := Some (VNum 42) |} in
  lookup_result w 0%nat 1%nat = Some r ∧
  lookup_result (ex_resolve w ex_env 2%nat None).1 0%nat 1%nat = Some r.
Proof.
  intros w r.
  assert (lookup_result w 0%nat 1%nat = Some r) as H by (vm_compute; reflexivity).
  split; [exact H|].
  exact (proj1 (resolve_frame ex_joinPaths ex_resolvable_body ex_then_body w ex_env 2%nat None)
           0%nat 1%nat r H).
Defined.


(** X7 on the example: resolvable 2 returns the pending promise 1. *)
Lemma resolve_asynchronous_witness :
  let w := new_Resolver ex_heap in
  let h := ex_heap ++ [Promise (Fulfilled VUndefined)] in
  lookup_result w (env_ref ex_env) 2%nat = None ∧
  ex_resolvable_body 2%nat ex_env (data_promise w (env_ref ex_env) None).2
    (data_promise w (env_ref ex_env) None).1 = (Return (VObj 1%nat), h) ∧
  is_promise h (VObj 1%nat) = true ∧
  ∃ w',
    let result := {| id := 1; status := Busy; promise := VObj 8%nat;
                     value := None; error := None |} in
    ex_resolve w ex_env 2%nat None = (w', Return result) ∧
    lookup_result w' (env_ref ex_env) 2%nat = Some result ∧
    heap w' = h ++ [Promise Pending] ∧
    promise_state (heap w') (VObj 8%nat) = Some Pending ∧
    promise_state (heap w') (VObj 1%nat) = promise_state h (VObj 1%nat) ∧
    reactions w' = [Unwrap 1%nat 8%nat; Changes (VObj 8%nat) 0%nat 2%nat 1 "/a/b"] ∧
    listenerIds w' = [].
Proof.
  intros w h.
  assert (lookup_result w (env_ref ex_env) 2%nat = None) as H1 by (vm_compute; reflexivity).
  assert (ex_resolvable_body 2%nat ex_env (data_promise w (env_ref ex_env) None).2
            (data_promise w (env_ref ex_env) None).1 = (Return (VObj 1%nat), h)) as H2
    by (vm_compute; reflexivity).
  assert (is_promise h (VObj 1%nat) = true) as H3 by (vm_compute; reflexivity).
  split; [exact H1|]. split; [exact H2|]. split; [exact H3|].
  exact (resolve_asynchronous ex_joinPaths ex_resolvable_body ex_then_body
           w ex_env 2%nat None 1%nat h H1 H2 H3).
Defined.

(** X8 on the example: promise 1 is fulfilled with the module-like object 0,
    and the value of the Resolution is its [default]. *)
Lemma attempt_fulfils_witness :
  let w := new_Resolver ex_heap in
  let h := ex_heap ++ [Promise (Fulfilled VUndefined)] in
  let w1 := (ex_resolve w ex_env 2%nat None).1 in
  let w' := ex_run w1 [Settle 1%nat (Fulfilled (VObj 0%nat)); React 0%nat; React 0%nat] in
  let result := {| id := 1; status := Ready; promise := VObj 8%nat;
                   value := Some (VStr "x"); error := None |} in
  lookup_result w (env_ref ex_env) 2%nat = None ∧
  ex_resolvable_body 2%nat ex_env (data_promise w (env_ref ex_env) None).2
    (data_promise w (env_ref ex_env) None).1 = (Return (VObj 1%nat), h) ∧
  h !! 1%nat = Some (Promise Pending) ∧
  existsb (derived_by 1%nat) (reactions w) = false ∧
  thenable (heap w1) (VObj 0%nat) = false ∧
  thenable (heap w1) (extractDefault (heap w1) (VObj 0%nat)) = false ∧
  lookup_result w' (env_ref ex_env) 2%nat = Some result ∧
  reactions w' = [Notify true 1] ∧
  trace w' = trace w1 ∧
  (∀ dataResolvable', ex_resolve w' ex_env 2%nat dataResolvable' = (w', Return result)) ∧
  ex_react w' 0%nat = ex_notify (set_reactions w' []) true 1.
Proof.
  intros w h w1 w' result.
  assert (lookup_result w (env_ref ex_env) 2%nat = None) as H1 by (vm_compute; reflexivity).
  assert (ex_resolvable_body 2%nat ex_env (data_promise w (env_ref ex_env) None).2
            (data_promise w (env_ref ex_env) None).1 = (Return (VObj 1%nat), h)) as H2
    by (vm_compute; reflexivity).
  assert (h !! 1%nat = Some (Promise Pending)) as H3 by (vm_compute; reflexivity).
  assert (existsb (derived_by 1%nat) (reactions w) = false) as H4 by (vm_compute; reflexivity).
  assert (thenable (heap w1) (VObj 0%nat) = false) as H5 by (vm_compute; reflexivity).
  assert (thenable (heap w1) (extractDefault (heap w1) (VObj 0%nat)) = false) as H6
    by (vm_compute; reflexivity).
  split; [exact H1|]. split; [exact H2|]. split; [exact H3|]. split; [exact H4|].
  split; [exact H5|]. split; [exact H6|].
  exact (attempt_fulfils ex_joinPaths ex_resolvable_body ex_then_body ex_listener_body
           w ex_env 2%nat None 1%nat h (VObj 0%nat) H1 H2 H3 H4 H5 H6).
Defined.

(** X9 on the example: promise 1 is rejected with the not-found error 2. *)
Lemma attempt_rejects_witness :
  let w := new_Resolver ex_heap in
  let h := ex_heap ++ [Promise (Fulfilled VUndefined)] in
  let w1 := (ex_resolve w ex_env 2%nat None).1 in
  let w' := ex_run w1 [Settle 1%nat (Rejected (VObj 2%nat)); React 0%nat; React 0%nat] in
  lookup_result w (env_ref ex_env) 2%nat = None ∧
  ex_resolvable_body 2%nat ex_env (data_promise w (env_ref ex_env) None).2
    (data_promise w (env_ref ex_env) None).1 = (Return (VObj 1%nat), h) ∧
  h !! 1%nat = Some (Promise Pending) ∧
  existsb (derived_by 1%nat) (reactions w) = false ∧
  ∃ e',
    let result := {| id := 1; status := Error; promise := VObj 8%nat;
                     value := None; error := Some e' |} in
    lookup_result w' (env_ref ex_env) 2%nat = Some result ∧
    truthy e' = true ∧
    (truthy (VObj 2%nat) = true → e' = VObj 2%nat) ∧
    promise_state (heap w') (VObj 1%nat) = Some (Rejected (VObj 2%nat)) ∧
    promise_state (heap w') (VObj 8%nat) = Some (Rejected (VObj 2%nat)) ∧
    reactions w' = [Notify true 1] ∧
    trace w' = trace w1 ∧
    (∀ dataResolvable', ex_resolve w' ex_env 2%nat dataResolvable' = (w', Return result)).
Proof.
  intros w h w1 w'.
  assert (lookup_result w (env_ref ex_env) 2%nat = None) as H1 by (vm_compute; reflexivity).
  assert (ex_resolvable_body 2%nat ex_env (data_promise w (env_ref ex_env) None).2
            (data_promise w (env_ref ex_env) None).1 = (Return (VObj 1%nat), h)) as H2
    by (vm_compute; reflexivity).
  assert (h !! 1%nat = Some (Promise Pending)) as H3 by (vm_compute; reflexivity).
  assert (existsb (derived_by 1%nat) (reactions w) = false) as H4 by (vm_compute; reflexivity).
  split; [exact H1|]. split; [exact H2|]. split; [exact H3|]. split; [exact H4|].
  exact (attempt_rejects ex_joinPaths ex_resolvable_body ex_then_body ex_listener_body
           w ex_env 2%nat None 1%nat h (VObj 2%nat) H1 H2 H3 H4).
Defined.

(** X10 on the example: listener 11, registered with the array 8, is
    registered with the array 10 instead, which holds the ids 8 and 9, and
    keeps its place between 10 and 13. *)
Lemma listen_registers_witness :
  let w' := listen ex_listening 11%nat 10%nat in
  NoDup (listenerIds ex_listening).*1 ∧
  (∀ ids, (11%nat, ids) ∈ listenerIds w' ↔ ids = 10%nat) ∧
  (listenerIds w').*1 = [10%nat; 11%nat; 13%nat].
Proof.
  intros w'.
  assert (NoDup (listenerIds ex_listening).*1) as H
    by (apply (bool_decide_unpack _); vm_compute; exact I).
  destruct (listen_registers ex_listening 11%nat 10%nat H) as (Hin & _ & Hkeys & _).
  split; [exact H|]. split; [exact Hin|exact Hkeys].
Defined.

(** X11 on the example: listener 12 is not registered; removing it changes
    nothing, and removing it after a [listen] gives the world back. *)
Lemma unlisten_removes_witness :
  (12%nat ∉ (listenerIds ex_listening).*1) ∧
  unlisten ex_listening 12%nat = ex_listening ∧
  ∀ ids, unlisten (listen ex_listening 12%nat ids) 12%nat = ex_listening.
Proof.
  assert (12%nat ∉ (listenerIds ex_listening).*1) as H
    by (apply (bool_decide_unpack _); vm_compute; exact I).
  destruct (unlisten_removes ex_listening 12%nat) as (_ & _ & _ & Hnoop & _ & Hundo & _).
  split; [exact H|]. split; [exact (Hnoop H)|exact (Hundo H)].
Defined.

(** X12 on the example: nobody listens for id 9. *)
Lemma notify_no_subscriber_witness :
  subscribed (heap ex_listening) (listenerIds ex_listening) 9 = [] ∧
  ex_notify ex_listening true 9 = ex_listening.
Proof.
  assert (subscribed (heap ex_listening) (listenerIds ex_listening) 9 = []) as H
    by (vm_compute; reflexivity).
  split; [exact H|].
  exact (notify_no_subscriber ex_joinPaths ex_resolvable_body ex_then_body ex_listener_body
           ex_listening 9 H).
Defined.

(** X13 on an example: two orders of the same statuses. *)
Lemma reduceStatuses_fold_witness :
  ([Ready; Busy] ≡ₚ [Busy; Ready]) ∧
  fold_left reduceStatuses [Busy; Ready] Ready = fold_left reduceStatuses [Ready; Busy] Ready.
Proof.
  assert ([Ready; Busy] ≡ₚ [Busy; Ready]) as H by apply perm_swap.
  split; [exact H|].
  exact (proj2 (proj2 (proj2 (reduceStatuses_fold Ready [Ready; Busy]))) [Busy; Ready] H).
Defined.

(** X14 on the example: resolvable 2 returns a promise, and [resolve]
    registers the callbacks. *)
Lemma resolve_registers_for_thenable_only_witness :
  let w := new_Resolver ex_heap in
  (reactions (ex_resolve w ex_env 2%nat None).1 ≠ reactions w ∨
   held (ex_resolve w ex_env 2%nat None).1 ≠ held w) ∧
  lookup_result w (env_ref ex_env) 2%nat = None ∧
  ∃ v h,
    ex_resolvable_body 2%nat ex_env (data_promise w (env_ref ex_env) None).2
      (data_promise w (env_ref ex_env) None).1 = (Return v, h) ∧
    isPromiseLike h v = true ∧
    ∃ h' p rs,
      then_extractDefault ex_then_body h (reactions w) v = (h', Return (p, rs)).
Proof.
  intros w.
  assert (reactions (ex_resolve w ex_env 2%nat None).1 ≠ reactions w ∨
          held (ex_resolve w ex_env 2%nat None).1 ≠ held w) as H
    by (left; intros H; vm_compute in H; discriminate H).
  split; [exact H|].
  exact (resolve_registers_for_thenable_only ex_joinPaths ex_resolvable_body ex_then_body
           w ex_env 2%nat None H).
Defined.

(** X15 on the example: the notification for id 7 is run, and listeners 10
    and 11 are called. *)
Lemma listeners_called_by_notification_only_witness :
  let w := set_reactions ex_listening [Notify true 7] in
  listener_calls (trace (ex_step w (React 0%nat))) ≠ listener_calls (trace w) ∧
  ∃ i n, React 0%nat = React i ∧ reactions w !! i = Some (Notify true n) ∧
         subscribed (heap w) (listenerIds w) n ≠ [].
Proof.
  intros w.
  assert (listener_calls (trace (ex_step w (React 0%nat))) ≠ listener_calls (trace w)) as H
    by (intros H; vm_compute in H; discriminate H).
  split; [exact H|].
  exact (listeners_called_by_notification_only ex_joinPaths ex_resolvable_body ex_then_body
           ex_listener_body w (React 0%nat) H).
Defined.

